(** * A Turing-machine emulator: the tape, the rule table and the run loop

    Shallow embedding of [main.cpp].  The tape is the doubly linked chain of
    [bi_list] cells the program builds on the heap; the heap is a list of
    cells indexed by address, a pointer is an optional address ([None] is
    [nullptr]).  Methods of [TM] become functions on the machine state;
    dereferencing a null or dangling pointer, and reading a variable that was
    never written, have no result ([None]). *)

From Stdlib Require Import ZArith Ascii String List Sorting.Sorted Permutation Lia.
From stdpp Require Import base list sorting strings.

Open Scope string_scope.
Open Scope list_scope.
Open Scope nat_scope.

(** ** Characters and C strings *)

Definition wildcard : ascii := "*"%char.
Definition blank : ascii := "_"%char.
Definition newline : ascii := "010"%char.

(** [strcmp] on NUL-free strings: bytes compare as unsigned values, the
    result is negative, zero or positive. *)
Definition strcmp (a b : string) : Z :=
  match String.compare a b with
  | Lt => (-1)%Z
  | Eq => 0%Z
  | Gt => 1%Z
  end.

(** ** Transition rules: [class state] *)

Record state := State {
  name : string;
  in_symbol : ascii;
  out_symbol : ascii;
  move : ascii;
  next_state : string
}.

(** The comparator lambda of [TM::fill_states]. *)
Definition comparator (st_1 st_2 : state) : bool :=
  (strcmp (name st_1) (name st_2) <? 0)%Z
  || ((strcmp (name st_1) (name st_2) =? 0)%Z && (in_symbol st_2 =? wildcard)%char).

(** ** [std::sort]

    The sort of the C++ library (GNU libstdc++): an introsort.  A vector of up
    to sixteen elements is sorted by insertion alone: each element in turn is
    compared with the first one and, when the comparator puts it before it,
    moved to the front; otherwise it is walked backwards through the sorted
    prefix while the comparator puts it before its left neighbour.  In
    [insertion_sort] the sorted prefix is kept last element first, so its last
    element is the first of the range.

    A longer vector is first partitioned around the median of three elements
    until the pieces are short, and then finished by insertion without the
    comparison with the first element.  The partition and that insertion
    rely on the comparator to stop at the ends of the range.  The comparator
    of [fill_states] holds of a wildcard rule and itself, so it is not a
    strict weak order, and they can run off the vector: the sort then has no
    result. *)
Module Sort.

Fixpoint unguarded_linear_insert (comp : state -> state -> bool)
    (val : state) (prefix_rev : list state) : list state :=
  match prefix_rev with
  | [] => [val]
  | next :: rest =>
      if comp val next then next :: unguarded_linear_insert comp val rest
      else val :: prefix_rev
  end.

Definition insert_one (comp : state -> state -> bool)
    (prefix_rev : list state) (val : state) : list state :=
  match last prefix_rev with
  | None => [val]
  | Some first =>
      if comp val first then prefix_rev ++ [val]
      else unguarded_linear_insert comp val prefix_rev
  end.

Definition insertion_sort (comp : state -> state -> bool) (l : list state) : list state :=
  rev (fold_left (insert_one comp) l []).

(** The array steps of the library's sort.  The vector is the list [a], an
    iterator is an index into it, and a read at an index outside the vector
    has no result. *)
Definition threshold : nat := 16.

Definition iter_swap (a : list state) (i j : nat) : option (list state) :=
  x ← a !! i; y ← a !! j; Some (<[j := x]> (<[i := y]> a)).

(** [__unguarded_linear_insert] at the index [last]: the walk of
    [unguarded_linear_insert] in the array; nothing stops it at the first
    element. *)
Fixpoint linear_walk (comp : state -> state -> bool) (val : state)
    (a : list state) (last : nat) : option (list state) :=
  match last with
  | O => None
  | S next =>
      x ← a !! next;
      if comp val x then linear_walk comp val (<[last := x]> a) next
      else Some (<[last := val]> a)
  end.

Definition unguarded_linear_insert_at (comp : state -> state -> bool)
    (a : list state) (last : nat) : option (list state) :=
  val ← a !! last; linear_walk comp val a last.

(** [__unguarded_insertion_sort] on the [count] elements from index [i]. *)
Fixpoint unguarded_insertion_sort (count : nat) (comp : state -> state -> bool)
    (a : list state) (i : nat) : option (list state) :=
  match count with
  | O => Some a
  | S count' =>
      a ← unguarded_linear_insert_at comp a i;
      unguarded_insertion_sort count' comp a (S i)
  end.

(** [__final_insertion_sort] on the whole vector. *)
Definition final_insertion_sort (comp : state -> state -> bool) (a : list state)
    : option (list state) :=
  if threshold <? length a then
    unguarded_insertion_sort (length a - threshold) comp
      (insertion_sort comp (take threshold a) ++ drop threshold a) threshold
  else Some (insertion_sort comp a).

(** [__move_median_to_first]. *)
Definition move_median_to_first (comp : state -> state -> bool) (arr : list state)
    (result a b c : nat) : option (list state) :=
  xa ← arr !! a; xb ← arr !! b; xc ← arr !! c;
  if comp xa xb then
    if comp xb xc then iter_swap arr result b
    else if comp xa xc then iter_swap arr result c
    else iter_swap arr result a
  else if comp xa xc then iter_swap arr result a
  else if comp xb xc then iter_swap arr result c
  else iter_swap arr result b.

(** [while (comp (first, pivot)) ++first], on the elements from [first] on. *)
Fixpoint scan_up (comp : state -> state -> bool) (pivot : state)
    (from_first : list state) (first : nat) : option nat :=
  match from_first with
  | [] => None
  | x :: rest =>
      if comp x pivot then scan_up comp pivot rest (S first) else Some first
  end.

(** [while (comp (pivot, last)) --last]. *)
Fixpoint scan_down (comp : state -> state -> bool) (pivot : state)
    (a : list state) (last : nat) : option nat :=
  x ← a !! last;
  if comp pivot x then
    match last with
    | O => None
    | S last' => scan_down comp pivot a last'
    end
  else Some last.

(** [__unguarded_partition]; each pass moves [first] up, so there are no more
    passes than elements. *)
Fixpoint unguarded_partition (fuel : nat) (comp : state -> state -> bool)
    (a : list state) (first last pivot : nat) : option (list state * nat) :=
  match fuel with
  | O => None
  | S fuel' =>
      p ← a !! pivot;
      first ← scan_up comp p (drop first a) first;
      last ← match last with
             | O => None
             | S last' => scan_down comp p a last'
             end;
      if negb (first <? last) then Some (a, first)
      else
        a ← iter_swap a first last;
        unguarded_partition fuel' comp a (S first) last pivot
  end.

Definition unguarded_partition_pivot (comp : state -> state -> bool)
    (a : list state) (first last : nat) : option (list state * nat) :=
  let mid := first + (last - first) / 2 in
  a ← move_median_to_first comp a first (first + 1) mid (last - 1);
  unguarded_partition (length a) comp a (first + 1) last first.

(** The heap sort that takes over when the depth limit is used up. *)
Fixpoint push_heap (fuel : nat) (comp : state -> state -> bool) (a : list state)
    (first holeIndex topIndex : nat) (value : state) : option (list state) :=
  match fuel with
  | O => None
  | S fuel' =>
      let parent := (holeIndex - 1) / 2 in
      if topIndex <? holeIndex then
        p ← a !! (first + parent);
        if comp p value then
          push_heap fuel' comp (<[first + holeIndex := p]> a) first parent topIndex value
        else Some (<[first + holeIndex := value]> a)
      else Some (<[first + holeIndex := value]> a)
  end.

Fixpoint adjust_heap_loop (fuel : nat) (comp : state -> state -> bool)
    (a : list state) (first len holeIndex secondChild : nat)
    : option (list state * nat * nat) :=
  if secondChild <? (len - 1) / 2 then
    match fuel with
    | O => None
    | S fuel' =>
        let secondChild := 2 * (secondChild + 1) in
        x ← a !! (first + secondChild);
        y ← a !! (first + (secondChild - 1));
        let secondChild := if comp x y then secondChild - 1 else secondChild in
        z ← a !! (first + secondChild);
        adjust_heap_loop fuel' comp (<[first + holeIndex := z]> a) first len
          secondChild secondChild
    end
  else Some (a, holeIndex, secondChild).

Definition adjust_heap (comp : state -> state -> bool) (a : list state)
    (first holeIndex len : nat) (value : state) : option (list state) :=
  let topIndex := holeIndex in
  '(a, holeIndex, secondChild) ←
    adjust_heap_loop len comp a first len holeIndex holeIndex;
  '(a, holeIndex) ←
    (if Nat.even len && (secondChild =? (len - 2) / 2) then
       let secondChild := 2 * (secondChild + 1) in
       z ← a !! (first + (secondChild - 1));
       Some (<[first + holeIndex := z]> a, secondChild - 1)
     else Some (a, holeIndex));
  push_heap (S holeIndex) comp a first holeIndex topIndex value.

Definition pop_heap (comp : state -> state -> bool) (a : list state)
    (first last result : nat) : option (list state) :=
  value ← a !! result;
  x ← a !! first;
  adjust_heap comp (<[result := x]> a) first 0 (last - first) value.

Fixpoint make_heap_loop (comp : state -> state -> bool) (a : list state)
    (first len parent : nat) : option (list state) :=
  value ← a !! (first + parent);
  a ← adjust_heap comp a first parent len value;
  match parent with
  | O => Some a
  | S parent' => make_heap_loop comp a first len parent'
  end.

Definition make_heap (comp : state -> state -> bool) (a : list state)
    (first last : nat) : option (list state) :=
  if last - first <? 2 then Some a
  else make_heap_loop comp a first (last - first) ((last - first - 2) / 2).

Fixpoint heap_select_loop (count : nat) (comp : state -> state -> bool)
    (a : list state) (first middle i : nat) : option (list state) :=
  match count with
  | O => Some a
  | S count' =>
      x ← a !! i; y ← a !! first;
      a ← (if comp x y then pop_heap comp a first middle i else Some a);
      heap_select_loop count' comp a first middle (S i)
  end.

Definition heap_select (comp : state -> state -> bool) (a : list state)
    (first middle last : nat) : option (list state) :=
  a ← make_heap comp a first middle;
  heap_select_loop (last - middle) comp a first middle middle.

Fixpoint sort_heap (fuel : nat) (comp : state -> state -> bool) (a : list state)
    (first last : nat) : option (list state) :=
  if 1 <? last - first then
    match fuel with
    | O => None
    | S fuel' =>
        let last := last - 1 in
        a ← pop_heap comp a first last last;
        sort_heap fuel' comp a first last
    end
  else Some a.

Definition partial_sort (comp : state -> state -> bool) (a : list state)
    (first middle last : nat) : option (list state) :=
  a ← heap_select comp a first middle last;
  sort_heap (middle - first) comp a first middle.

(** [__introsort_loop]: every pass of its [while] and every call lowers the
    depth limit. *)
Fixpoint introsort_loop (comp : state -> state -> bool) (a : list state)
    (first last depth_limit : nat) : option (list state) :=
  if threshold <? last - first then
    match depth_limit with
    | O => partial_sort comp a first last last
    | S depth_limit' =>
        '(a, cut) ← unguarded_partition_pivot comp a first last;
        a ← introsort_loop comp a cut last depth_limit';
        introsort_loop comp a first cut depth_limit'
    end
  else Some a.

(** [std::sort] on the whole vector. *)
Definition sort (comp : state -> state -> bool) (a : list state)
    : option (list state) :=
  match a with
  | [] => Some a
  | _ =>
      a ← introsort_loop comp a 0 (length a) (Nat.log2 (length a) * 2);
      final_insertion_sort comp a
  end.

End Sort.

(** ** [TM::fill_states]

    The source file is taken as the sequence of records that
    [fscanf "%s %c %c %c %s"] delivers before it first fails.  The result is
    the return value, the vector [states] and what was printed; there is none
    when the sort runs off the vector. *)
Definition move_error : string :=
  "Error! Moving symbols are only 'l', 'r' and '*'" +:+ String newline "".

(** The record passes the test [move != 'r' && move != 'l' && move != '*']. *)
Definition valid_move (m : ascii) : bool :=
  (m =? "r")%char || (m =? "l")%char || (m =? wildcard)%char.

Fixpoint read_records (records : list state) (states : list state)
    : bool * list state :=
  match records with
  | [] => (true, states)
  | tmp :: records' =>
      if negb (valid_move (move tmp)) then (false, states)
      else read_records records' (states ++ [tmp])
  end.

Definition fill_states (records : list state)
    : option (bool * list state * string) :=
  match read_records records [] with
  | (false, states) => Some (false, states, move_error)
  | (true, states) =>
      states ← Sort.sort comparator states;
      Some (true, states, "")
  end.

(** The [std::find_if] call of [TM::run_simulation], with its lambda. *)
Definition matches (curr_name : string) (curr_symbol : ascii) (st : state) : bool :=
  (strcmp curr_name (name st) =? 0)%Z
  && ((curr_symbol =? in_symbol st)%char || (in_symbol st =? wildcard)%char).

Definition find_rule (states : list state) (curr_name : string) (curr_symbol : ascii)
    : option state :=
  List.find (matches curr_name curr_symbol) states.

(** ** Tape cells: [class bi_list] *)

Abbreviation addr := nat (only parsing).
Abbreviation ptr := (option nat) (only parsing).

Record bi_list := Cell {
  value : ascii;
  left : ptr;
  right : ptr
}.

Definition get_value (c : bi_list) : ascii := value c.

Definition set_value (c : bi_list) (v : ascii) : bi_list :=
  if (v =? wildcard)%char then c
  else Cell v (left c) (right c).

Definition set_left (p : ptr) (c : bi_list) : bi_list := Cell (value c) p (right c).
Definition set_right (p : ptr) (c : bi_list) : bi_list := Cell (value c) (left c) p.

(** ** The heap

    [new bi_list ()] appends a blank, unlinked cell and returns its address;
    it does not return null, so the null checks that follow it in the source
    are never taken and have no branch here.  [load] and [update] dereference
    a pointer. *)
Definition new_bi_list (h : list bi_list) : ptr * list bi_list :=
  (Some (length h), h ++ [Cell blank None None]).

Definition load (h : list bi_list) (p : ptr) : option bi_list :=
  a ← p; h !! a.

Definition update (h : list bi_list) (p : ptr) (f : bi_list -> bi_list)
    : option (list bi_list) :=
  a ← p; c ← h !! a; Some (<[a := f c]> h).

(** ** [class TM] *)

Record TM := Machine {
  heap : list bi_list;
  curr : ptr;
  states : list state
}.

Definition with_heap (m : TM) (h : list bi_list) : TM := Machine h (curr m) (states m).
Definition with_curr (m : TM) (p : ptr) : TM := Machine (heap m) p (states m).

(** [while (p->left) p = p->left].  The heap does not change during the walk,
    so a walk that has not ended after as many cells as the heap holds is in
    a cycle and never ends: it has no result. *)
Fixpoint walk_left (fuel : nat) (h : list bi_list) (p : ptr) : option ptr :=
  match fuel with
  | O => None
  | S fuel' =>
      c ← load h p;
      match left c with
      | None => Some p
      | Some l => walk_left fuel' h (Some l)
      end
  end.

Definition move_carriage_to_beginning (m : TM) : option TM :=
  p ← walk_left (length (heap m)) (heap m) (curr m);
  Some (with_curr m p).

(** The body of the [while] of [TM::init_tape_by_input], one character at a
    time. *)
Fixpoint init_tape_loop (input : list ascii) (m : TM) : option TM :=
  match input with
  | [] => Some m
  | c_in :: input' =>
      if (c_in =? newline)%char then init_tape_loop input' m
      else
        let '(p, h) := new_bi_list (heap m) in
        h ← update h (curr m) (set_right p);
        c ← load h (curr m);
        h ← update h (right c) (fun c' => set_value c' c_in);
        c ← load h (curr m);
        h ← update h (right c) (set_left (curr m));
        c ← load h (curr m);
        init_tape_loop input' (Machine h (right c) (states m))
  end.

(** [TM::init_tape_by_input].  On an empty stream the first [fscanf] stores
    nothing and [in] is read before it was ever written. *)
Definition init_tape_by_input (input : list ascii) (m : TM) : option (bool * TM) :=
  match input with
  | [] => None
  | c_in :: input' =>
      let '(p, h) := new_bi_list (heap m) in
      h ← update h p (fun c => set_value c c_in);
      m ← init_tape_loop input' (Machine h p (states m));
      m ← move_carriage_to_beginning m;
      Some (true, m)
  end.

(** [TM::move_carriage]. *)
Definition move_carriage (direction : ascii) (m : TM) : option (bool * TM) :=
  if (direction =? "r")%char then
    c ← load (heap m) (curr m);
    m ← match right c with
        | Some _ => Some m
        | None =>
            let '(p, h) := new_bi_list (heap m) in
            h ← update h (curr m) (set_right p);
            c ← load h (curr m);
            h ← update h (right c) (set_left (curr m));
            Some (with_heap m h)
        end;
    c ← load (heap m) (curr m);
    Some (true, with_curr m (right c))
  else if (direction =? "l")%char then
    c ← load (heap m) (curr m);
    m ← match left c with
        | Some _ => Some m
        | None =>
            let '(p, h) := new_bi_list (heap m) in
            h ← update h (curr m) (set_left p);
            c ← load h (curr m);
            h ← update h (left c) (set_right (curr m));
            Some (with_heap m h)
        end;
    c ← load (heap m) (curr m);
    Some (true, with_curr m (left c))
  else Some (true, m).

(** [TM::print_answer]: the second loop, from [tmp] rightwards until null. *)
Fixpoint print_cells (fuel : nat) (h : list bi_list) (tmp : ptr) : option string :=
  match tmp with
  | None => Some ""
  | Some _ =>
      match fuel with
      | O => None
      | S fuel' =>
          c ← load h tmp;
          rest ← print_cells fuel' h (right c);
          Some (if (get_value c =? blank)%char then rest
                else String (get_value c) rest)
      end
  end.

Definition print_answer (m : TM) : option string :=
  tmp ← walk_left (length (heap m)) (heap m) (curr m);
  line ← print_cells (length (heap m)) (heap m) tmp;
  Some (line +:+ String newline "").

(** [TM::clean]: back to the first cell, then rightwards deleting every cell. *)
Fixpoint walk_right (fuel : nat) (h : list bi_list) (p : ptr) : option ptr :=
  match fuel with
  | O => None
  | S fuel' =>
      c ← load h p;
      match right c with
      | None => Some p
      | Some r => walk_right fuel' h (Some r)
      end
  end.

Definition clean (m : TM) : option TM :=
  m ← move_carriage_to_beginning m;
  _ ← walk_right (length (heap m)) (heap m) (curr m);
  Some (Machine [] None (states m)).

(** ** Standard input and output *)

Definition nl : string := String newline "".

Inductive debug_command := next_step | until_end | non_debug.

Definition debug_prompt : string :=
  "Please enter 'n' (next step) or 'c' (go to the end)" +:+ nl.

(** [TM::scan_debug_command]: the command, the rest of the standard input and
    what was printed.  At the end of the input [scanf] stores nothing and
    [command] is read before it was written. *)
Fixpoint scan_debug_command (stdin : list ascii)
    : option (debug_command * list ascii * string) :=
  match stdin with
  | [] => None
  | command :: stdin' =>
      if (command =? "n")%char then Some (next_step, stdin', "")
      else if (command =? "c")%char then Some (until_end, stdin', "")
      else
        '(cmd, rest, out) ← scan_debug_command stdin';
        Some (cmd, rest,
              (if negb (command =? newline)%char then debug_prompt else "") +:+ out)
  end.

(** [state::state (std::string, char)] and [state::print]. *)
Definition state_of (name_arg : string) (in_symbol_arg : ascii) : state :=
  State name_arg in_symbol_arg blank wildcard "".

Definition print_state (st : state) : string :=
  "Last executed state: " +:+ name st +:+ " " +:+ String (in_symbol st) ""
  +:+ " " +:+ String (out_symbol st) "" +:+ " " +:+ String (move st) ""
  +:+ " " +:+ next_state st +:+ nl.

Definition no_rule_error (curr_state : state) : string :=
  "Error! There is no state " +:+ name curr_state +:+ " with symbol "
  +:+ String (in_symbol curr_state) "" +:+ nl.

Definition allocation_error : string :=
  "Error! Allocation failure! Most likely the Turing machine went into an infinite loop!"
  +:+ nl.

Definition hello : string :=
  "Hello in debug mode!" +:+ nl +:+ "Press 'n' to go to the next step" +:+ nl
  +:+ "Press 'c' to run the programm until the end" +:+ nl +:+ nl.

(** ** [TM::run_simulation] *)

(** An [int] returned from a function whose return type is [bool]. *)
Definition bool_of_int (z : Z) : bool := negb (z =? 0)%Z.

Record run_state := RunState {
  machine : TM;
  curr_state : state;
  command : debug_command;
  stdin : list ascii;
  stdout : string
}.

Definition printf (s : run_state) (text : string) : run_state :=
  RunState (machine s) (curr_state s) (command s) (stdin s) (stdout s +:+ text).

Inductive flow :=
  | Next (s : run_state)
  | Return (ret : bool) (s : run_state).

(** One pass through the body of the [while]. *)
Definition loop_body (s : run_state) : option flow :=
  let m := machine s in
  match find_rule (states m) (name (curr_state s)) (in_symbol (curr_state s)) with
  | None => Some (Return (bool_of_int (-1)) (printf s (no_rule_error (curr_state s))))
  | Some iter =>
      h ← update (heap m) (curr m) (fun c => set_value c (out_symbol iter));
      '(moved, m) ← move_carriage (move iter) (with_heap m h);
      if negb moved then
        Some (Return (bool_of_int (-1))
                (printf (RunState m (curr_state s) (command s) (stdin s) (stdout s))
                        allocation_error))
      else
        c ← load (heap m) (curr m);
        let next :=
          state_of (if (strcmp (next_state iter) "*" =? 0)%Z
                    then name (curr_state s) else next_state iter)
                   (get_value c) in
        match command s with
        | next_step =>
            text ← print_answer m;
            '(cmd, rest, prompts) ← scan_debug_command (stdin s);
            Some (Next (RunState m next cmd rest
                          (stdout s +:+ text +:+ print_state iter +:+ prompts)))
        | _ => Some (Next (RunState m next (command s) (stdin s) (stdout s)))
        end
  end.

Inductive outcome (A : Type) :=
  | Returns (a : A)
  | Undefined
  | OutOfFuel.
Arguments Returns {A} a.
Arguments Undefined {A}.
Arguments OutOfFuel {A}.

(** The [while] loop and the lines after it.  The loop has no bound in the
    source; [fuel] bounds the number of passes. *)
Fixpoint run_loop (fuel : nat) (s : run_state) : outcome (bool * run_state) :=
  if negb (strcmp (name (curr_state s)) "halt" =? 0)%Z then
    match fuel with
    | O => OutOfFuel
    | S fuel' =>
        match loop_body s with
        | None => Undefined
        | Some (Next s') => run_loop fuel' s'
        | Some (Return ret s') => Returns (ret, s')
        end
    end
  else
    match print_answer (machine s) with
    | None => Undefined
    | Some text => Returns (bool_of_int 0, printf s text)
    end.

(** The lines of [TM::run_simulation] before the loop. *)
Definition run_prologue (mode : ascii) (m : TM) (stdin : list ascii) (stdout : string)
    : option run_state :=
  '(command, stdin, stdout) ←
    (if (mode =? "d")%char then
       text ← print_answer m;
       '(cmd, rest, prompts) ← scan_debug_command stdin;
       Some (cmd, rest, stdout +:+ hello +:+ text +:+ prompts)
     else Some (non_debug, stdin, stdout));
  c ← load (heap m) (curr m);
  Some (RunState m (state_of "0" (get_value c)) command stdin stdout).

Definition run_simulation (fuel : nat) (mode : ascii) (m : TM)
    (stdin : list ascii) (stdout : string) : outcome (bool * run_state) :=
  match run_prologue mode m stdin stdout with
  | None => Undefined
  | Some s => run_loop fuel s
  end.

(** ** [main]

    [argv] is the argument vector, [source] and [input] are what the two
    [fopen] calls give: nothing when the file cannot be opened, else the
    records of the program file and the characters of the tape file.  The
    result is the value [main] returns and the standard output. *)
Definition usage (prog : string) : string :=
  "Usage: " +:+ prog +:+ " <file with machine code> <file with input> <mode(r/d)>" +:+ nl.

Definition invalid_files : string := "Invalid input file(s)" +:+ nl.

Definition first_char (s : string) : ascii :=
  match s with
  | EmptyString => zero
  | String c _ => c
  end.

Definition main (fuel : nat) (argv : list string)
    (source : option (list state)) (input : option (list ascii))
    (stdin : list ascii) : outcome (Z * string) :=
  match argv with
  | [prog; _; _; mode] =>
      if negb (first_char mode =? "d")%char && negb (first_char mode =? "r")%char then
        Returns ((-1)%Z, usage prog)
      else
        match source, input with
        | Some records, Some tape =>
            match fill_states records with
            | None => Undefined
            | Some (filled, states, out) =>
                if negb filled then Returns ((-1)%Z, out)
                else
                  match init_tape_by_input tape (Machine [] None states) with
                  | None => Undefined
                  | Some (initialised, m) =>
                      if negb initialised then Returns ((-1)%Z, out)
                      else
                        match run_simulation fuel (first_char mode) m stdin out with
                        | Returns (_, s) =>
                            match clean (machine s) with
                            | None => Undefined
                            | Some _ => Returns (0%Z, stdout s)
                            end
                        | Undefined => Undefined
                        | OutOfFuel => OutOfFuel
                        end
                  end
            end
        | _, _ => Returns ((-1)%Z, invalid_files)
        end
  | prog :: _ => Returns ((-1)%Z, usage prog)
  | [] => Undefined
  end.

(** * Specification vocabulary *)

(** ** The order the sorted table is in

    [before a b]: rule [a] may stand before rule [b] in a sorted table: names
    ascend and, within one name, no wildcard rule stands before a concrete
    one. *)
Definition before (a b : state) : Prop :=
  (strcmp (name a) (name b) < 0)%Z
  ∨ (name a = name b ∧ (in_symbol a = wildcard → in_symbol b = wildcard)).

(** ** The tape a heap represents

    [chain] lists the addresses of the cells of the tape from the leftmost to
    the rightmost: the [left] and [right] pointers of each cell are its
    neighbours in the chain, null at the two ends.  [tape_inv m chain pos]:
    the heap of [m] holds such a chain and the head of [m] is its cell number
    [pos]. *)
Definition prev_of (chain : list addr) (i : nat) : ptr :=
  match i with
  | O => None
  | S j => chain !! j
  end.

Definition linked (h : list bi_list) (chain : list addr) : Prop :=
  NoDup chain
  ∧ ∀ i a, chain !! i = Some a →
      ∃ c, h !! a = Some c ∧ left c = prev_of chain i ∧ right c = chain !! S i.

Definition tape_inv (m : TM) (chain : list addr) (pos : nat) : Prop :=
  linked (heap m) chain ∧ is_Some (chain !! pos) ∧ curr m = chain !! pos.

(** The symbols on the tape, left to right. *)
Definition contents (h : list bi_list) (chain : list addr) : list ascii :=
  (λ a, from_option value blank (h !! a)) <$> chain.

(** The tape with its blank cells removed, as a string. *)
Definition render (cells : list ascii) : string :=
  string_of_list_ascii (filter (λ c, c ≠ blank) cells).

(** What a cell holds after [set_value v] when it held [old]. *)
Definition written (old v : ascii) : ascii :=
  if decide (v = wildcard) then old else v.

(** A head move on the tape as a sequence of symbols with a head index: a
    blank cell appears when the head leaves the sequence at either end. *)
Definition tape_move (direction : ascii) (t : list ascii * nat) : list ascii * nat :=
  let '(cells, pos) := t in
  if decide (direction = "r"%char) then
    (if decide (S pos = length cells) then cells ++ [blank] else cells, S pos)
  else if decide (direction = "l"%char) then
    match pos with
    | O => (blank :: cells, O)
    | S p => (cells, p)
    end
  else t.

(** Several head moves in a row; the result is [false] as soon as one is. *)
Fixpoint move_all (directions : list ascii) (m : TM) : option (bool * TM) :=
  match directions with
  | [] => Some (true, m)
  | d :: directions' =>
      '(moved, m) ← move_carriage d m;
      if negb moved then Some (false, m) else move_all directions' m
  end.

(** No cell of the heap holds the wildcard. *)
Definition no_wildcard (h : list bi_list) : Prop :=
  Forall (λ c, value c ≠ wildcard) h.

(** The run states a run of [run_simulation] passes through at the top of
    its [while], on the tape that [init_tape_by_input] builds from [input]
    in a machine with the rule table [table]. *)
Inductive reachable (table : list state) (input : list ascii) (mode : ascii)
    (stdin0 : list ascii) (stdout0 : string) : run_state → Prop :=
  | reachable_start m s :
      init_tape_by_input input (Machine [] None table) = Some (true, m) →
      run_prologue mode m stdin0 stdout0 = Some s →
      reachable table input mode stdin0 stdout0 s
  | reachable_step s s' :
      reachable table input mode stdin0 stdout0 s →
      (strcmp (name (curr_state s)) "halt" =? 0)%Z = false →
      loop_body s = Some (Next s') →
      reachable table input mode stdin0 stdout0 s'.

(** The name the machine is in after the rule [iter] was applied in the
    state named [current]. *)
Definition next_name (current : string) (iter : state) : string :=
  if decide (next_state iter = "*") then current else next_state iter.

(** ** A machine to run on

    The unary increment: the head runs right over the ones and writes a one
    on the first blank.  [tape_11] is the machine after
    [init_tape_by_input] on the input [11]. *)
Definition unary_increment : list state :=
  [State "0" "1" "1" "r" "0"; State "0" "_" "1" "*" "halt"].

Definition tape_11 : TM :=
  Machine [Cell "1" None (Some 1); Cell "1" (Some 0) None] (Some 0) unary_increment.

(** ** A table of seventeen rules

    One state, a rule for each of the symbols [a] to [o], and two wildcard
    rules, the ninth and the seventeenth of the file. *)
Definition table_17 : list state :=
  [State "0" "a" "a" "r" "0"; State "0" "b" "b" "r" "0";
   State "0" "c" "c" "r" "0"; State "0" "d" "d" "r" "0";
   State "0" "e" "e" "r" "0"; State "0" "f" "f" "r" "0";
   State "0" "g" "g" "r" "0"; State "0" "h" "h" "r" "0";
   State "0" "*" "*" "r" "0";
   State "0" "i" "i" "r" "0"; State "0" "j" "j" "r" "0";
   State "0" "k" "k" "r" "0"; State "0" "l" "l" "r" "0";
   State "0" "m" "m" "r" "0"; State "0" "n" "n" "r" "0";
   State "0" "o" "o" "r" "0";
   State "0" "*" "_" "*" "halt"].

(** ** The machine on a sequence of symbols

    [tm_run] is the run of a machine on a tape given as the sequence of its
    symbols with the index of the head: in a state other than [halt] the rule
    found for the state and the symbol under the head writes, moves the head
    and names the next state.  It ends in [Halted] with the final tape, or in
    [NoRule] with the state and symbol that have no rule; it has no result
    when [fuel] passes were not enough. *)
Inductive tm_result :=
  | Halted (cells : list ascii)
  | NoRule (current : string) (symbol : ascii).

Fixpoint tm_run (fuel : nat) (table : list state) (cells : list ascii) (pos : nat)
    (current : string) : option tm_result :=
  if decide (current = "halt") then Some (Halted cells)
  else
    match fuel with
    | O => None
    | S fuel' =>
        let symbol := default blank (cells !! pos) in
        match find_rule table current symbol with
        | None => Some (NoRule current symbol)
        | Some iter =>
            let '(cells', pos') :=
              tape_move (move iter)
                (<[pos := written symbol (out_symbol iter)]> cells, pos) in
            tm_run fuel' table cells' pos' (next_name current iter)
        end
    end.

(** ** [TM::clean] with the deleted cells tracked

    [deleted] lists the addresses that were passed to [delete].  Reading a
    deleted cell and deleting a cell twice have no result; [delete] of a null
    pointer does nothing.  The result is the list of the deleted cells, the
    last one first. *)
Definition live_load (h : list bi_list) (deleted : list addr) (p : ptr)
    : option bi_list :=
  a ← p; if decide (a ∈ deleted) then None else h !! a.

Definition delete (h : list bi_list) (deleted : list addr) (p : ptr)
    : option (list addr) :=
  match p with
  | None => Some deleted
  | Some a =>
      if decide (a ∈ deleted) then None
      else _ ← h !! a; Some (a :: deleted)
  end.

Fixpoint clean_loop (fuel : nat) (h : list bi_list) (deleted : list addr)
    (curr : ptr) : option (list addr) :=
  match fuel with
  | O => None
  | S fuel' =>
      c ← live_load h deleted curr;
      match right c with
      | None => delete h deleted curr
      | Some r =>
          c' ← live_load h deleted (Some r);
          deleted ← delete h deleted (left c');
          clean_loop fuel' h deleted (Some r)
      end
  end.

Definition clean_deleting (m : TM) : option (list addr) :=
  m ← move_carriage_to_beginning m;
  clean_loop (length (heap m)) (heap m) [] (curr m).

(** ** The debug dialogue

    The prompts [scan_debug_command] prints for the characters it skips: one
    for each character other than a newline. *)
Definition prompts_for (skipped : list ascii) : string :=
  foldr (λ c out, (if decide (c = newline) then "" else debug_prompt) +:+ out)
        "" skipped.

Definition command_of (c : ascii) : debug_command :=
  if decide (c = "n"%char) then next_step else until_end.

(** * Properties of the rule table *)

(** ** [strcmp] *)

Lemma ascii_compare_lt_trans (a b c : ascii) :
  Ascii.compare a b = Lt → Ascii.compare b c = Lt → Ascii.compare a c = Lt.
Proof.
  unfold Ascii.compare. rewrite !N.compare_lt_iff. lia.
Qed.

Lemma string_compare_lt_trans (a b c : string) :
  String.compare a b = Lt → String.compare b c = Lt → String.compare a c = Lt.
Proof.
  revert b c. induction a as [|x a IH]; intros [|y b] [|z c]; simpl; try done.
  destruct (Ascii.compare x y) eqn:Hxy; try done.
  - apply Ascii.compare_eq_iff in Hxy as ->.
    destruct (Ascii.compare y z); try done. apply IH.
  - intros _. destruct (Ascii.compare y z) eqn:Hyz; try done.
    + apply Ascii.compare_eq_iff in Hyz as <-. by rewrite Hxy.
    + by rewrite (ascii_compare_lt_trans x y z).
Qed.

Lemma string_compare_refl (a : string) : String.compare a a = Eq.
Proof.
  induction a as [|x a IH]; simpl; [done|].
  unfold Ascii.compare. by rewrite N.compare_refl.
Qed.

Lemma strcmp_eq (a b : string) : (strcmp a b = 0)%Z ↔ a = b.
Proof.
  unfold strcmp. split.
  - destruct (String.compare a b) eqn:H; try done.
    intros _. by apply String.compare_eq_iff.
  - intros ->. by rewrite string_compare_refl.
Qed.

Lemma strcmp_eqb (a b : string) : (strcmp a b =? 0)%Z = bool_decide (a = b).
Proof.
  case_bool_decide as H.
  - apply Z.eqb_eq. by apply strcmp_eq.
  - apply Z.eqb_neq. by rewrite strcmp_eq.
Qed.

Lemma strcmp_lt (a b : string) : (strcmp a b < 0)%Z ↔ String.compare a b = Lt.
Proof. unfold strcmp. destruct (String.compare a b); split; (done || lia). Qed.

Lemma strcmp_lt_trans (a b c : string) :
  (strcmp a b < 0)%Z → (strcmp b c < 0)%Z → (strcmp a c < 0)%Z.
Proof. rewrite !strcmp_lt. apply string_compare_lt_trans. Qed.

Lemma strcmp_lt_irrefl (a : string) : ¬ (strcmp a a < 0)%Z.
Proof. rewrite strcmp_lt, string_compare_refl. done. Qed.

Lemma strcmp_total (a b : string) :
  (strcmp a b < 0)%Z ∨ a = b ∨ (strcmp b a < 0)%Z.
Proof.
  rewrite !strcmp_lt, String.compare_antisym.
  destruct (String.compare b a) eqn:H; simpl; auto.
  apply String.compare_eq_iff in H. auto.
Qed.

Lemma ascii_eqb_decide (a b : ascii) : (a =? b)%char = bool_decide (a = b).
Proof.
  case_bool_decide as H.
  - by apply Ascii.eqb_eq.
  - by apply Ascii.eqb_neq.
Qed.

(** ** The comparator and the order [before] *)

Lemma comparator_spec (a b : state) :
  comparator a b = true
  ↔ (strcmp (name a) (name b) < 0)%Z ∨ (name a = name b ∧ in_symbol b = wildcard).
Proof.
  unfold comparator. rewrite orb_true_iff, andb_true_iff.
  by rewrite Z.ltb_lt, Z.eqb_eq, strcmp_eq, Ascii.eqb_eq.
Qed.

Lemma comparator_true (a b : state) : comparator a b = true → before a b.
Proof.
  rewrite comparator_spec. unfold before.
  intros [Hlt|[Hname Hwild]]; [by left|by right].
Qed.

Lemma comparator_false (a b : state) : comparator a b = false → before b a.
Proof.
  unfold comparator, before. rewrite orb_false_iff, andb_false_iff.
  rewrite Z.ltb_ge, Z.eqb_neq, strcmp_eq, Ascii.eqb_neq.
  intros [Hge Hor]. destruct (strcmp_total (name a) (name b)) as [?|[Heq|?]];
    [lia| |by left].
  right. split; [done|]. by destruct Hor.
Qed.

(** [before a b] says that the comparator does not put [b] strictly before
    [a]: a table is in the order [before] when it has no inversion. *)
Lemma before_comparator (a b : state) :
  before a b ↔ ¬ (comparator b a = true ∧ comparator a b = false).
Proof.
  split.
  - intros Hab [Hba Hnab]. apply comparator_spec in Hba.
    unfold comparator in Hnab. rewrite orb_false_iff, andb_false_iff in Hnab.
    rewrite Z.ltb_ge, Z.eqb_neq, strcmp_eq, Ascii.eqb_neq in Hnab.
    destruct Hnab as [Hge Hor].
    destruct Hab as [Hlt|[Hname Hw]]; [lia|].
    destruct Hba as [Hlt|[_ Hwa]].
    + rewrite Hname in Hlt. by apply strcmp_lt_irrefl in Hlt.
    + destruct Hor as [Hne|Hnw]; [done|]. by apply Hnw, Hw.
  - intros Hn. destruct (comparator a b) eqn:Hab; [by apply comparator_true|].
    destruct (comparator b a) eqn:Hba; [by destruct Hn|].
    by apply comparator_false in Hba.
Qed.

Lemma before_trans (a b c : state) : before a b → before b c → before a c.
Proof.
  unfold before. intros [Hab|[Hab Wab]] [Hbc|[Hbc Wbc]].
  - left. eauto using strcmp_lt_trans.
  - left. by rewrite <- Hbc.
  - left. by rewrite Hab.
  - right. split; [congruence | auto].
Qed.

#[local] Instance before_transitive : Transitive before.
Proof. intros a b c. apply before_trans. Qed.

(** A wildcard rule is never before a concrete rule of the same name. *)
Lemma before_same_name (w c : state) :
  before w c → name w = name c → in_symbol w = wildcard → in_symbol c = wildcard.
Proof.
  intros [Hlt|[_ Hw]] Hname; [|done].
  rewrite Hname in Hlt. by apply strcmp_lt_irrefl in Hlt.
Qed.

(** ** The insertion sort *)

Section insertion_sort.
Import Sort.

Lemma unguarded_linear_insert_perm (val : state) (prefix_rev : list state) :
  unguarded_linear_insert comparator val prefix_rev ≡ₚ val :: prefix_rev.
Proof.
  induction prefix_rev as [|next rest IH]; simpl; [done|].
  destruct (comparator val next); [|done].
  rewrite IH. apply Permutation_swap.
Qed.

Lemma insert_one_perm (prefix_rev : list state) (val : state) :
  insert_one comparator prefix_rev val ≡ₚ val :: prefix_rev.
Proof.
  unfold insert_one. destruct (last prefix_rev) as [first|] eqn:Hlast.
  - destruct (comparator val first).
    + by rewrite Permutation_app_comm.
    + apply unguarded_linear_insert_perm.
  - apply last_None in Hlast as ->. done.
Qed.

Lemma fold_insert_one_perm (l acc : list state) :
  fold_left (insert_one comparator) l acc ≡ₚ l ++ acc.
Proof.
  revert acc. induction l as [|x l IH]; intros acc; simpl; [done|].
  rewrite IH, insert_one_perm. by rewrite Permutation_middle.
Qed.

Lemma insertion_sort_perm (l : list state) :
  insertion_sort comparator l ≡ₚ l.
Proof.
  unfold insertion_sort.
  rewrite <- Permutation_rev, fold_insert_one_perm. by rewrite app_nil_r.
Qed.

(** The prefix is kept last element first, so it descends. *)
Lemma unguarded_linear_insert_sorted (val : state) (prefix_rev : list state) :
  StronglySorted (flip before) prefix_rev →
  StronglySorted (flip before) (unguarded_linear_insert comparator val prefix_rev).
Proof.
  induction prefix_rev as [|next rest IH]; simpl; intros Hs.
  { repeat constructor. }
  apply StronglySorted_cons in Hs as [Hall Hs].
  destruct (comparator val next) eqn:Hc.
  - apply StronglySorted_cons. split; [|auto].
    rewrite unguarded_linear_insert_perm. constructor; [|done].
    by apply comparator_true.
  - apply comparator_false in Hc.
    apply StronglySorted_cons. split; [|by apply StronglySorted_cons].
    constructor; [done|].
    eapply Forall_impl; [exact Hall|]. intros x Hx. simpl in *.
    by transitivity next.
Qed.

Lemma insert_one_sorted (prefix_rev : list state) (val : state) :
  StronglySorted (flip before) prefix_rev →
  StronglySorted (flip before) (insert_one comparator prefix_rev val).
Proof.
  intros Hs. unfold insert_one.
  destruct (last prefix_rev) as [first|] eqn:Hlast; [|repeat constructor].
  destruct (comparator val first) eqn:Hc;
    [|by apply unguarded_linear_insert_sorted].
  apply comparator_true in Hc.
  apply last_Some in Hlast as [front ->].
  apply StronglySorted_app_2; [|done|repeat constructor].
  intros x y Hx ->%list_elem_of_singleton. simpl.
  apply elem_of_app in Hx as [Hx| ->%list_elem_of_singleton]; [|done].
  transitivity first; [done|].
  by eapply (StronglySorted_app_1_elem_of (flip before) front [first] x first);
    [|done|apply list_elem_of_singleton].
Qed.

Lemma fold_insert_one_sorted (l acc : list state) :
  StronglySorted (flip before) acc →
  StronglySorted (flip before) (fold_left (insert_one comparator) l acc).
Proof.
  revert acc. induction l as [|x l IH]; intros acc Hs; simpl; [done|].
  by apply IH, insert_one_sorted.
Qed.

Lemma StronglySorted_rev_flip (l : list state) :
  StronglySorted (flip before) l → StronglySorted before (rev l).
Proof.
  induction l as [|x l IH]; simpl; intros Hs; [constructor|].
  apply StronglySorted_cons in Hs as [Hall Hs].
  apply StronglySorted_app_2; [|auto|repeat constructor].
  intros y z Hy ->%list_elem_of_singleton.
  rewrite Forall_forall in Hall. apply Hall.
  by rewrite list_elem_of_In, in_rev, <- list_elem_of_In.
Qed.

Lemma insertion_sort_sorted (l : list state) :
  StronglySorted before (insertion_sort comparator l).
Proof.
  apply StronglySorted_rev_flip, fold_insert_one_sorted. constructor.
Qed.

End insertion_sort.

(** ** Lookup in a sorted table *)

Lemma matches_spec (q : string) (s : ascii) (st : state) :
  matches q s st = true ↔ q = name st ∧ (s = in_symbol st ∨ in_symbol st = wildcard).
Proof.
  unfold matches.
  by rewrite andb_true_iff, orb_true_iff, Z.eqb_eq, strcmp_eq, !Ascii.eqb_eq.
Qed.

Lemma find_rule_sorted (table : list state) (c : state) :
  StronglySorted before table →
  c ∈ table →
  in_symbol c ≠ wildcard →
  ∃ r, find_rule table (name c) (in_symbol c) = Some r
       ∧ r ∈ table ∧ name r = name c ∧ in_symbol r = in_symbol c.
Proof.
  unfold find_rule. intros Hs Hc Hconcrete.
  induction table as [|x table IH]; [by apply elem_of_nil in Hc|].
  apply StronglySorted_cons in Hs as [Hall Hs]. simpl.
  destruct (matches (name c) (in_symbol c) x) eqn:Hm.
  - exists x. apply matches_spec in Hm as [Hname Hsym].
    split; [done|]. split; [by left|]. split; [done|].
    destruct Hsym as [Hsym|Hwild]; [done|]. exfalso.
    apply elem_of_cons in Hc as [->|Hc]; [done|].
    rewrite Forall_forall in Hall.
    by apply Hconcrete, (before_same_name x c); [apply Hall| |].
  - apply elem_of_cons in Hc as [->|Hc].
    + assert (matches (name x) (in_symbol x) x = true) as Hx
        by (apply matches_spec; auto).
      congruence.
    + destruct (IH Hs Hc) as (r & Hf & Hr & Hn & Hi).
      exists r. split; [done|]. split; [by right|done].
Qed.

Lemma read_records_valid (records states : list state) :
  Forall (λ r, valid_move (move r) = true) records →
  read_records records states = (true, states ++ records).
Proof.
  revert states. induction records as [|r records IH]; intros states Hv; simpl.
  { by rewrite app_nil_r. }
  apply Forall_cons in Hv as [Hr Hv]. rewrite Hr. simpl.
  rewrite IH by done. by rewrite <- app_assoc.
Qed.


(** A vector of up to sixteen elements is sorted by insertion alone. *)
Lemma introsort_loop_small (comp : state → state → bool) (a : list state)
    (first last depth_limit : nat) :
  last - first ≤ Sort.threshold →
  Sort.introsort_loop comp a first last depth_limit = Some a.
Proof.
  intros Hle. destruct depth_limit; simpl;
    by rewrite (proj2 (Nat.ltb_ge _ _) Hle).
Qed.

Lemma sort_small (comp : state → state → bool) (a : list state) :
  length a ≤ Sort.threshold →
  Sort.sort comp a = Some (Sort.insertion_sort comp a).
Proof.
  intros Hle. destruct a as [|x a]; [done|].
  unfold Sort.sort. rewrite introsort_loop_small by lia. simpl.
  unfold Sort.final_insertion_sort.
  by rewrite (proj2 (Nat.ltb_ge _ _) Hle).
Qed.

Lemma fill_states_valid (records : list state) :
  Forall (λ r, valid_move (move r) = true) records →
  length records ≤ 16 →
  fill_states records = Some (true, Sort.insertion_sort comparator records, "").
Proof.
  intros Hv Hlen. unfold fill_states.
  by rewrite read_records_valid, sort_small.
Qed.

Lemma fill_states_valid_Some (records : list state)
    (r : bool * list state * string) :
  Forall (λ r, valid_move (move r) = true) records →
  fill_states records = Some r →
  ∃ table, Sort.sort comparator records = Some table ∧ r = (true, table, "").
Proof.
  intros Hv. unfold fill_states. rewrite read_records_valid by done. simpl.
  destruct (Sort.sort comparator records) as [table|]; [|done].
  intros [= <-]. by exists table.
Qed.

(** In a table of up to sixteen rules that loads, when a state has a rule
    with a concrete [in_symbol] and a rule with the wildcard [in_symbol],
    looking that state up with the concrete symbol finds a rule of the table
    with that state name and that concrete symbol, never the wildcard
    rule. *)
Lemma concrete_rule_before_wildcard_small (records : list state) (c w : state) :
  Forall (λ r, valid_move (move r) = true) records →
  length records ≤ 16 →
  c ∈ records → w ∈ records →
  name w = name c → in_symbol c ≠ wildcard → in_symbol w = wildcard →
  ∃ table r,
    fill_states records = Some (true, table, "")
    ∧ find_rule table (name c) (in_symbol c) = Some r
    ∧ r ∈ records ∧ name r = name c ∧ in_symbol r = in_symbol c
    ∧ r ≠ w.
Proof.
  intros Hv Hlen Hc Hw Hname Hconcrete Hwild.
  exists (Sort.insertion_sort comparator records).
  destruct (find_rule_sorted (Sort.insertion_sort comparator records) c)
    as (r & Hf & Hr & Hn & Hi).
  - apply insertion_sort_sorted.
  - by rewrite insertion_sort_perm.
  - done.
  - exists r. split; [by apply fill_states_valid|].
    split; [done|]. rewrite insertion_sort_perm in Hr.
    repeat split; try done. intros ->. congruence.
Qed.

(** C1. The table [table_17] has seventeen rules of the state [0], fifteen
    with a concrete [in_symbol] and two with the wildcard; every move is
    valid.  Sorting it runs off the vector: the median of the three rules
    looked at is a wildcard rule, the comparator puts every rule of the state
    before it, and the partition reads on past the last rule.  So the table
    is never looked up, and the program has no defined result on it. *)
Theorem sort_runs_off_table_17 :
  length table_17 = 17
  ∧ Forall (λ r, valid_move (move r) = true) table_17
  ∧ (∃ c w, c ∈ table_17 ∧ w ∈ table_17 ∧ name w = name c
            ∧ in_symbol c ≠ wildcard ∧ in_symbol w = wildcard)
  ∧ Sort.unguarded_partition_pivot comparator table_17 0 17 = None
  ∧ fill_states table_17 = None
  ∧ ∀ fuel tape stdin,
      main fuel ["a.out"; "source.txt"; "input.txt"; "r"] (Some table_17)
           (Some tape) stdin
      = Undefined.
Proof.
  split; [reflexivity|]. split; [by repeat constructor|]. split.
  { exists (State "0" "a" "a" "r" "0"), (State "0" "*" "*" "r" "0").
    split; [by apply list_elem_of_lookup; exists 0|].
    split; [by apply list_elem_of_lookup; exists 8|]. done. }
  split; [by vm_compute|].
  assert (fill_states table_17 = None) as Hfill by by vm_compute.
  split; [done|]. intros fuel tape stdin. unfold main. by rewrite Hfill.
Qed.

(** * Properties of the tape *)

(** ** Pointers into a linked chain *)

Lemma linked_lookup (h : list bi_list) (chain : list addr) (i : nat) (a : addr) :
  linked h chain → chain !! i = Some a →
  ∃ c, h !! a = Some c ∧ left c = prev_of chain i ∧ right c = chain !! S i.
Proof. intros [_ H]. apply H. Qed.

Lemma linked_lt (h : list bi_list) (chain : list addr) (a : addr) :
  linked h chain → a ∈ chain → a < length h.
Proof.
  intros Hl (i & Hi)%list_elem_of_lookup.
  destruct (linked_lookup _ _ _ _ Hl Hi) as (c & Hc & _).
  by eapply lookup_lt_Some.
Qed.

(** A chain has no more cells than the heap. *)
Lemma linked_length (h : list bi_list) (chain : list addr) :
  linked h chain → length chain ≤ length h.
Proof.
  intros Hl.
  assert (length chain ≤ length (seq 0 (length h))) as Hle;
    [|by rewrite length_seq in Hle].
  apply submseteq_length, NoDup_submseteq; [apply Hl|].
  intros a Ha. apply elem_of_seq. split; [lia|].
  simpl. by eapply linked_lt.
Qed.

Lemma linked_fresh (h : list bi_list) (chain : list addr) :
  linked h chain → length h ∉ chain.
Proof. intros Hl Hin. apply (linked_lt _ _ _ Hl) in Hin. lia. Qed.

(** Changing the value of one cell keeps the chain. *)
Lemma linked_set_value (h : list bi_list) (chain : list addr) (a : addr)
    (c : bi_list) (v : ascii) :
  linked h chain → h !! a = Some c →
  linked (<[a := Cell v (left c) (right c)]> h) chain.
Proof.
  intros [Hnd Hl] Hc. split; [done|]. intros i x Hx.
  destruct (Hl i x Hx) as (cx & Hcx & Hleft & Hright).
  destruct (decide (x = a)) as [->|Hne].
  - rewrite list_lookup_insert_eq by by eapply lookup_lt_Some.
    eexists. split; [done|]. simpl. naive_solver.
  - rewrite list_lookup_insert_ne by done. eauto.
Qed.

Lemma contents_set_value (h : list bi_list) (chain : list addr) (pos : nat)
    (a : addr) (c : bi_list) (v : ascii) :
  linked h chain → chain !! pos = Some a → h !! a = Some c →
  contents (<[a := Cell v (left c) (right c)]> h) chain
  = <[pos := v]> (contents h chain).
Proof.
  intros [Hnd Hl] Hpos Hc. unfold contents. apply list_eq. intros i.
  rewrite list_lookup_fmap.
  destruct (decide (i = pos)) as [->|Hne].
  - rewrite list_lookup_insert_eq
      by (rewrite length_fmap; by eapply lookup_lt_Some).
    rewrite Hpos. simpl.
    by rewrite list_lookup_insert_eq by by eapply lookup_lt_Some.
  - rewrite list_lookup_insert_ne by done. rewrite list_lookup_fmap.
    destruct (chain !! i) as [x|] eqn:Hx; [|done]. simpl.
    rewrite list_lookup_insert_ne; [done|].
    intros <-. apply Hne. by eapply NoDup_lookup.
Qed.

(** ** Linking a fresh cell at an end of the chain *)

Lemma load_Some (h : list bi_list) (a : addr) (c : bi_list) :
  h !! a = Some c → load h (Some a) = Some c.
Proof. done. Qed.

Lemma update_Some (h : list bi_list) (a : addr) (c : bi_list) (f : bi_list → bi_list) :
  h !! a = Some c → update h (Some a) f = Some (<[a := f c]> h).
Proof. intros H. unfold update. simpl. by rewrite H. Qed.

Lemma link_right (h : list bi_list) (chain : list addr) (pos : nat) (a : addr)
    (c : bi_list) (v : ascii) :
  linked h chain → chain !! pos = Some a → h !! a = Some c → right c = None →
  let fresh := length h in
  let h' := <[fresh := Cell v (Some a) None]>
              (<[a := set_right (Some fresh) c]> (h ++ [Cell blank None None])) in
  S pos = length chain
  ∧ linked h' (chain ++ [fresh])
  ∧ contents h' (chain ++ [fresh]) = contents h chain ++ [v].
Proof.
  intros Hl Hpos Hc Hright fresh h'.
  assert (a < length h) as Ha by by eapply lookup_lt_Some.
  assert (fresh ∉ chain) as Hfresh by by apply linked_fresh.
  assert (S pos = length chain) as Hlast.
  { destruct (linked_lookup _ _ _ _ Hl Hpos) as (c' & Hc' & _ & Hr).
    assert (c' = c) as -> by congruence.
    rewrite Hright in Hr. symmetry in Hr. apply lookup_ge_None in Hr.
    apply lookup_lt_Some in Hpos. lia. }
  assert (h' !! fresh = Some (Cell v (Some a) None)) as Hnew.
  { subst h'. rewrite list_lookup_insert_eq; [done|].
    rewrite length_insert, length_app. simpl. lia. }
  assert (∀ x, x ≠ fresh → x ≠ a → h' !! x = h !! x) as Hold.
  { intros x Hx1 Hx2. subst h'.
    rewrite !list_lookup_insert_ne by done.
    destruct (decide (x < length h)).
    - by rewrite lookup_app_l.
    - rewrite !lookup_ge_None_2; [done|lia|rewrite length_app; simpl; lia]. }
  assert (h' !! a = Some (set_right (Some fresh) c)) as Hcur.
  { subst h'. rewrite list_lookup_insert_ne by lia.
    rewrite list_lookup_insert_eq; [done|]. rewrite length_app. lia. }
  clearbody h'. clearbody fresh.
  split; [done|]. split.
  - split.
    { apply NoDup_app. split; [apply Hl|]. split; [|apply NoDup_singleton].
      intros x Hx ->%list_elem_of_singleton. done. }
    intros i x Hx.
    destruct (decide (i < length chain)) as [Hi|Hi].
    + rewrite lookup_app_l in Hx by done.
      assert (x ≠ fresh) by (intros ->; apply Hfresh; by eapply list_elem_of_lookup_2).
      destruct (linked_lookup _ _ _ _ Hl Hx) as (cx & Hcx & Hleft & Hr).
      assert (prev_of (chain ++ [fresh]) i = prev_of chain i) as Hprev.
      { destruct i as [|j]; [done|]. simpl. apply lookup_app_l. lia. }
      destruct (decide (x = a)) as [->|Hne].
      * assert (i = pos) as -> by (by eapply NoDup_lookup; [apply Hl|..]).
        assert (cx = c) as -> by congruence.
        eexists. split; [exact Hcur|]. simpl. split; [congruence|].
        rewrite lookup_app_r by lia. by replace (S pos - length chain) with 0 by lia.
      * rewrite Hold by done. exists cx. split; [done|]. split; [congruence|].
        rewrite Hr. destruct (decide (S i < length chain)).
        -- by rewrite lookup_app_l.
        -- exfalso. apply Hne. assert (i = pos) as -> by lia. congruence.
    + apply lookup_lt_Some in Hx as Hlt. rewrite length_app in Hlt. simpl in Hlt.
      assert (i = length chain) as -> by lia.
      rewrite lookup_app_r in Hx by lia.
      replace (length chain - length chain) with 0 in Hx by lia.
      simpl in Hx. injection Hx as <-.
      eexists. split; [exact Hnew|]. simpl. split.
      * rewrite <- Hlast. simpl. by rewrite lookup_app_l by (by eapply lookup_lt_Some).
      * symmetry. apply lookup_ge_None. rewrite length_app. simpl. lia.
  - unfold contents. rewrite fmap_app. simpl. rewrite Hnew. simpl. f_equal.
    apply list_fmap_ext. intros i x Hx.
    assert (x ≠ fresh) by (intros ->; apply Hfresh; by eapply list_elem_of_lookup_2).
    destruct (decide (x = a)) as [->|Hne].
    + by rewrite Hcur, Hc.
    + by rewrite Hold.
Qed.

Lemma link_left (h : list bi_list) (chain : list addr) (a : addr) (c : bi_list) :
  linked h chain → chain !! 0 = Some a → h !! a = Some c →
  let fresh := length h in
  let h' := <[fresh := Cell blank None (Some a)]>
              (<[a := set_left (Some fresh) c]> (h ++ [Cell blank None None])) in
  linked h' (fresh :: chain)
  ∧ contents h' (fresh :: chain) = blank :: contents h chain.
Proof.
  intros Hl Hpos Hc fresh h'.
  assert (a < length h) as Ha by by eapply lookup_lt_Some.
  assert (fresh ∉ chain) as Hfresh by by apply linked_fresh.
  assert (h' !! fresh = Some (Cell blank None (Some a))) as Hnew.
  { subst h'. rewrite list_lookup_insert_eq; [done|].
    rewrite length_insert, length_app. simpl. lia. }
  assert (∀ x, x ≠ fresh → x ≠ a → h' !! x = h !! x) as Hold.
  { intros x Hx1 Hx2. subst h'.
    rewrite !list_lookup_insert_ne by done.
    destruct (decide (x < length h)).
    - by rewrite lookup_app_l.
    - rewrite !lookup_ge_None_2; [done|lia|rewrite length_app; simpl; lia]. }
  assert (h' !! a = Some (set_left (Some fresh) c)) as Hcur.
  { subst h'. rewrite list_lookup_insert_ne by lia.
    rewrite list_lookup_insert_eq; [done|]. rewrite length_app. lia. }
  clearbody h'. clearbody fresh.
  split.
  - split.
    { apply NoDup_cons. split; [done|apply Hl]. }
    intros [|i] x Hx; simpl in Hx.
    + injection Hx as <-. eexists. split; [exact Hnew|]. done.
    + assert (x ≠ fresh) by (intros ->; apply Hfresh; by eapply list_elem_of_lookup_2).
      destruct (linked_lookup _ _ _ _ Hl Hx) as (cx & Hcx & Hleft & Hr).
      destruct (decide (x = a)) as [->|Hne].
      * assert (i = 0) as -> by (by eapply NoDup_lookup; [apply Hl|..]).
        assert (cx = c) as -> by congruence.
        eexists. split; [exact Hcur|]. simpl. done.
      * rewrite Hold by done. exists cx. split; [done|]. simpl. split; [|done].
        rewrite Hleft. destruct i as [|j]; [congruence|done].
  - unfold contents. simpl. rewrite Hnew. simpl. f_equal.
    apply list_fmap_ext. intros i x Hx.
    assert (x ≠ fresh) by (intros ->; apply Hfresh; by eapply list_elem_of_lookup_2).
    destruct (decide (x = a)) as [->|Hne].
    + by rewrite Hcur, Hc.
    + by rewrite Hold.
Qed.

(** ** Cells that never hold the wildcard *)

Lemma written_not_wildcard (old v : ascii) :
  old ≠ wildcard → written old v ≠ wildcard.
Proof. unfold written. by case_decide. Qed.

Lemma no_wildcard_link (h : list bi_list) (a : addr) (x : bi_list) (v : ascii)
    (l r : ptr) :
  no_wildcard h → value x ≠ wildcard → v ≠ wildcard →
  no_wildcard (<[length h := Cell v l r]> (<[a := x]> (h ++ [Cell blank None None]))).
Proof.
  intros Hh Hx Hv. unfold no_wildcard.
  apply Forall_insert; [|done]. apply Forall_insert; [|done].
  apply Forall_app. split; [done|]. by repeat constructor.
Qed.

Lemma no_wildcard_lookup (h : list bi_list) (a : addr) (c : bi_list) :
  no_wildcard h → h !! a = Some c → value c ≠ wildcard.
Proof.
  intros Hh Hc.
  exact (Forall_lookup_1 (λ c, value c ≠ wildcard) h a c Hh Hc).
Qed.

(** ** The head of a tape *)

Lemma tape_inv_head (m : TM) (chain : list addr) (pos : nat) :
  tape_inv m chain pos →
  ∃ a c, curr m = Some a ∧ chain !! pos = Some a ∧ heap m !! a = Some c
         ∧ left c = prev_of chain pos ∧ right c = chain !! S pos
         ∧ contents (heap m) chain !! pos = Some (value c).
Proof.
  intros (Hl & [a Ha] & Hcurr).
  destruct (linked_lookup _ _ _ _ Hl Ha) as (c & Hc & Hleft & Hright).
  exists a, c. repeat split; try done; [congruence|].
  unfold contents. by rewrite list_lookup_fmap, Ha; simpl; rewrite Hc.
Qed.

Lemma contents_length (h : list bi_list) (chain : list addr) :
  length (contents h chain) = length chain.
Proof. unfold contents. by rewrite length_fmap. Qed.

(** ** [set_value] on the cell under the head *)

Lemma set_value_written (c : bi_list) (v : ascii) :
  set_value c v = Cell (written (value c) v) (left c) (right c).
Proof.
  unfold set_value, written. rewrite ascii_eqb_decide.
  case_bool_decide as H.
  - rewrite decide_True by done. by destruct c.
  - by rewrite decide_False by done.
Qed.

Lemma write_head (m : TM) (chain : list addr) (pos : nat) (v old : ascii) :
  tape_inv m chain pos →
  contents (heap m) chain !! pos = Some old →
  ∃ h, update (heap m) (curr m) (λ c, set_value c v) = Some h
       ∧ tape_inv (with_heap m h) chain pos
       ∧ contents h chain = <[pos := written old v]> (contents (heap m) chain)
       ∧ (no_wildcard (heap m) → no_wildcard h).
Proof.
  intros Hinv Hold.
  destruct (tape_inv_head _ _ _ Hinv) as (a & c & Hcurr & Ha & Hc & _ & _ & Hval).
  assert (old = value c) as -> by congruence.
  destruct Hinv as (Hl & Hsome & _).
  exists (<[a := set_value c v]> (heap m)).
  rewrite Hcurr. split; [by rewrite (update_Some _ _ c)|].
  rewrite set_value_written. split.
  - split; [by apply linked_set_value|]. split; [done|]. simpl. congruence.
  - split; [by apply contents_set_value|].
    intros Hnw. apply Forall_insert; [done|]. simpl.
    by eapply written_not_wildcard, no_wildcard_lookup.
Qed.

(** ** [move_carriage] *)

Lemma lookup_after_alloc (h : list bi_list) (a : addr) (c x : bi_list) :
  h !! a = Some c →
  (h ++ [Cell blank None None]) !! a = Some c
  ∧ <[a := x]> (h ++ [Cell blank None None]) !! a = Some x
  ∧ <[a := x]> (h ++ [Cell blank None None]) !! length h
    = Some (Cell blank None None).
Proof.
  intros Hc. assert (a < length h) by by eapply lookup_lt_Some.
  split; [by rewrite lookup_app_l|]. split.
  - rewrite list_lookup_insert_eq; [done|]. rewrite length_app. lia.
  - rewrite list_lookup_insert_ne by lia.
    rewrite lookup_app_r by lia. by replace (length h - length h) with 0 by lia.
Qed.

Lemma move_carriage_right (m : TM) (chain : list addr) (pos : nat) :
  tape_inv m chain pos →
  ∃ m' chain',
    move_carriage "r" m = Some (true, m')
    ∧ tape_inv m' chain' (S pos)
    ∧ states m' = states m
    ∧ contents (heap m') chain'
      = (if decide (S pos = length chain)
         then contents (heap m) chain ++ [blank] else contents (heap m) chain)
    ∧ (no_wildcard (heap m) → no_wildcard (heap m')).
Proof.
  intros Hinv.
  destruct (tape_inv_head _ _ _ Hinv) as (a & c & Hcurr & Ha & Hc & _ & Hright & _).
  destruct Hinv as (Hl & _ & _).
  unfold move_carriage. simpl. rewrite Hcurr. simpl. rewrite Hc. simpl.
  destruct (right c) as [r|] eqn:Hr; simpl.
  - rewrite Hcurr. simpl. rewrite Hc. simpl. rewrite Hr.
    exists (with_curr m (Some r)), chain. split; [done|].
    split. { unfold tape_inv. simpl. rewrite <- Hright. eauto. } split; [done|].
    split; [|done]. rewrite decide_False; [done|].
    symmetry in Hright. apply lookup_lt_Some in Hright. lia.
  - destruct (lookup_after_alloc (heap m) a c (set_right (Some (length (heap m))) c) Hc)
      as (H1 & H2 & H3).
    destruct (link_right _ _ _ _ _ blank Hl Ha Hc Hr) as (Hlast & Hl' & Hcont).
    rewrite H1. simpl. rewrite H2. simpl. rewrite H3. simpl.
    rewrite Hcurr. simpl.
    rewrite list_lookup_insert_ne by (apply lookup_lt_Some in Hc; lia).
    rewrite H2. simpl.
    eexists (Machine _ (Some (length (heap m))) (states m)), (chain ++ [length (heap m)]).
    split; [done|]. split; [|split; [done|]].
    + split; [exact Hl'|]. simpl.
      rewrite lookup_app_r by lia. replace (S pos - length chain) with 0 by lia.
      split; [by eexists|done].
    + simpl. rewrite decide_True by done. split; [exact Hcont|].
      intros Hnw. apply no_wildcard_link; [done| |done].
      simpl. by eapply no_wildcard_lookup.
Qed.

Lemma move_carriage_left (m : TM) (chain : list addr) (pos : nat) :
  tape_inv m chain pos →
  ∃ m' chain',
    move_carriage "l" m = Some (true, m')
    ∧ tape_inv m' chain' (pred pos)
    ∧ states m' = states m
    ∧ contents (heap m') chain'
      = (if decide (pos = 0)
         then blank :: contents (heap m) chain else contents (heap m) chain)
    ∧ (no_wildcard (heap m) → no_wildcard (heap m')).
Proof.
  intros Hinv.
  destruct (tape_inv_head _ _ _ Hinv) as (a & c & Hcurr & Ha & Hc & Hleft & _ & _).
  destruct Hinv as (Hl & _ & _).
  unfold move_carriage. simpl. rewrite Hcurr. simpl. rewrite Hc. simpl.
  destruct (left c) as [l|] eqn:Hlc; simpl.
  - rewrite Hcurr. simpl. rewrite Hc. simpl. rewrite Hlc.
    destruct pos as [|p]; [done|]. simpl in *.
    exists (with_curr m (Some l)), chain. split; [done|].
    split. { unfold tape_inv. simpl. rewrite <- Hleft. eauto. }
    done.
  - destruct pos as [|p]; [|simpl in Hleft; apply lookup_lt_Some in Ha;
      symmetry in Hleft; apply lookup_ge_None in Hleft; lia].
    destruct (lookup_after_alloc (heap m) a c (set_left (Some (length (heap m))) c) Hc)
      as (H1 & H2 & H3).
    destruct (link_left _ _ _ _ Hl Ha Hc) as (Hl' & Hcont).
    rewrite H1. simpl. rewrite H2. simpl. rewrite H3. simpl.
    rewrite Hcurr. simpl.
    rewrite list_lookup_insert_ne by (apply lookup_lt_Some in Hc; lia).
    rewrite H2. simpl.
    eexists (Machine _ (Some (length (heap m))) (states m)), (length (heap m) :: chain).
    split; [done|]. split; [|split; [done|]].
    + split; [exact Hl'|]. simpl. split; [by eexists|done].
    + simpl. split; [exact Hcont|].
      intros Hnw. apply no_wildcard_link; [done| |done].
      simpl. by eapply no_wildcard_lookup.
Qed.

Lemma move_carriage_stay (direction : ascii) (m : TM) :
  direction ≠ "r"%char → direction ≠ "l"%char →
  move_carriage direction m = Some (true, m).
Proof.
  intros Hr Hl. unfold move_carriage.
  by rewrite !ascii_eqb_decide, !bool_decide_eq_false_2.
Qed.

(** Every move succeeds and is the move of [tape_move]. *)
Lemma move_carriage_spec (direction : ascii) (m : TM) (chain : list addr) (pos : nat) :
  tape_inv m chain pos →
  ∃ m' chain' pos',
    move_carriage direction m = Some (true, m')
    ∧ tape_inv m' chain' pos'
    ∧ states m' = states m
    ∧ (contents (heap m') chain', pos')
      = tape_move direction (contents (heap m) chain, pos)
    ∧ (no_wildcard (heap m) → no_wildcard (heap m')).
Proof.
  intros Hinv. unfold tape_move. rewrite contents_length.
  destruct (decide (direction = "r"%char)) as [->|Hr].
  { destruct (move_carriage_right _ _ _ Hinv)
      as (m' & chain' & H1 & H2 & H3 & H4 & H5).
    exists m', chain', (S pos). by rewrite H4. }
  destruct (decide (direction = "l"%char)) as [->|Hl].
  { destruct (move_carriage_left _ _ _ Hinv)
      as (m' & chain' & H1 & H2 & H3 & H4 & H5).
    exists m', chain', (pred pos). rewrite H4. by destruct pos. }
  exists m, chain, pos. by rewrite move_carriage_stay.
Qed.

(** ** Walking the chain: [move_carriage_to_beginning] and [print_answer] *)

Lemma walk_left_spec (h : list bi_list) (chain : list addr) (i fuel : nat) (a : addr) :
  linked h chain → chain !! i = Some a → i < fuel →
  walk_left fuel h (Some a) = Some (chain !! 0).
Proof.
  intros Hl. revert fuel a.
  induction i as [|j IH]; intros fuel a Ha Hfuel;
    (destruct fuel as [|fuel]; [lia|]);
    destruct (linked_lookup _ _ _ _ Hl Ha) as (c & Hc & Hleft & _);
    simpl in *; rewrite Hc; simpl; rewrite Hleft.
  - by rewrite Ha.
  - destruct (chain !! j) as [l|] eqn:Hj.
    + apply IH; [done|lia].
    + apply lookup_lt_Some in Ha. apply lookup_ge_None in Hj. lia.
Qed.

Lemma render_cons (v : ascii) (cells : list ascii) :
  render (v :: cells)
  = if (v =? blank)%char then render cells else String v (render cells).
Proof.
  unfold render. rewrite filter_cons, ascii_eqb_decide.
  case_bool_decide; by case_decide.
Qed.

Lemma print_cells_spec (h : list bi_list) (chain : list addr) (fuel i : nat) :
  linked h chain → length chain - i ≤ fuel →
  print_cells fuel h (chain !! i) = Some (render (drop i (contents h chain))).
Proof.
  intros Hl. revert i. induction fuel as [|fuel IH]; intros i Hfuel.
  - rewrite lookup_ge_None_2 by lia. simpl.
    by rewrite drop_ge by (rewrite contents_length; lia).
  - destruct (chain !! i) as [a|] eqn:Ha.
    + destruct (linked_lookup _ _ _ _ Hl Ha) as (c & Hc & _ & Hright).
      simpl. rewrite Hc. simpl. rewrite Hright, IH by lia. simpl.
      rewrite (drop_S _ (value c) i), render_cons; [done|].
      unfold contents. by rewrite list_lookup_fmap, Ha; simpl; rewrite Hc.
    + apply lookup_ge_None in Ha. simpl.
      by rewrite drop_ge by (rewrite contents_length; lia).
Qed.

Lemma walk_left_head (m : TM) (chain : list addr) (pos : nat) :
  tape_inv m chain pos →
  walk_left (length (heap m)) (heap m) (curr m) = Some (chain !! 0).
Proof.
  intros (Hl & [a Ha] & ->). rewrite Ha.
  apply (walk_left_spec _ chain pos); [done..|].
  apply lookup_lt_Some in Ha. apply linked_length in Hl. lia.
Qed.

Lemma print_answer_spec (m : TM) (chain : list addr) (pos : nat) :
  tape_inv m chain pos →
  print_answer m = Some (render (contents (heap m) chain) +:+ nl).
Proof.
  intros Hinv. unfold print_answer.
  rewrite (walk_left_head _ _ _ Hinv). simpl.
  destruct Hinv as (Hl & _ & _).
  pose proof (linked_length _ _ Hl).
  rewrite (print_cells_spec _ chain) by (done || lia).
  by rewrite drop_0.
Qed.

Lemma move_carriage_to_beginning_spec (m : TM) (chain : list addr) (pos : nat) :
  tape_inv m chain pos →
  ∃ m', move_carriage_to_beginning m = Some m'
        ∧ tape_inv m' chain 0 ∧ heap m' = heap m ∧ states m' = states m.
Proof.
  intros Hinv. unfold move_carriage_to_beginning.
  rewrite (walk_left_head _ _ _ Hinv). simpl.
  eexists. split; [done|]. destruct Hinv as (Hl & [a Ha] & _).
  split; [|done]. split; [done|]. split; [|done].
  apply lookup_lt_is_Some. apply lookup_lt_Some in Ha. lia.
Qed.

(** ** [init_tape_by_input] *)

Lemma init_tape_loop_spec (input : list ascii) (m : TM) (chain : list addr) (pos : nat) :
  tape_inv m chain pos → S pos = length chain →
  ∃ m' chain',
    init_tape_loop input m = Some m'
    ∧ tape_inv m' chain' (pred (length chain'))
    ∧ states m' = states m
    ∧ contents (heap m') chain'
      = contents (heap m) chain
        ++ (written blank <$> filter (λ c, c ≠ newline) input)
    ∧ (no_wildcard (heap m) → no_wildcard (heap m')).
Proof.
  revert m chain pos. induction input as [|c_in input IH]; intros m chain pos Hinv Hlast.
  { exists m, chain. simpl. rewrite app_nil_r, <- Hlast. done. }
  simpl. rewrite ascii_eqb_decide, filter_cons.
  case_bool_decide as Hnl.
  { rewrite decide_False by naive_solver. by eapply IH. }
  rewrite decide_True by done.
  destruct (tape_inv_head _ _ _ Hinv) as (a & c & Hcurr & Ha & Hc & _ & Hright & _).
  destruct Hinv as (Hl & _ & _).
  assert (right c = None) as Hr.
  { rewrite Hright. apply lookup_ge_None. lia. }
  destruct (lookup_after_alloc (heap m) a c (set_right (Some (length (heap m))) c) Hc)
    as (H1 & H2 & H3).
  destruct (link_right _ _ _ _ _ (written blank c_in) Hl Ha Hc Hr) as (_ & Hl' & Hcont).
  assert (a ≠ length (heap m)) as Hne by (apply lookup_lt_Some in Hc; lia).
  assert (length (heap m) < length
            (<[a:=set_right (Some (length (heap m))) c]>
               (heap m ++ [Cell blank None None]))) as Hlen
    by (rewrite length_insert, length_app; simpl; lia).
  rewrite Hcurr. simpl. rewrite H1. simpl. rewrite H2. simpl. rewrite H3. simpl.
  rewrite list_lookup_insert_ne, H2 by done. simpl.
  rewrite list_lookup_insert_eq by done. simpl.
  rewrite list_insert_insert_eq.
  rewrite list_lookup_insert_ne, H2 by done. simpl.
  rewrite set_value_written. simpl.
  match type of Hl' with linked ?h' _ =>
    destruct (IH (Machine h' (Some (length (heap m))) (states m))
                (chain ++ [length (heap m)]) (length chain))
      as (m' & chain' & Hrun & Hinv' & Hst & Hcont' & Hnw')
  end.
  { split; [exact Hl'|]. simpl.
    rewrite lookup_app_r by lia. replace (length chain - length chain) with 0 by lia.
    split; [by eexists|done]. }
  { rewrite length_app. simpl. lia. }
  exists m', chain'. split; [exact Hrun|]. split; [done|]. split; [done|].
  split.
  - rewrite Hcont'. simpl. rewrite Hcont. by rewrite <- app_assoc.
  - intros Hnw. apply Hnw'. simpl. apply no_wildcard_link; [done|..].
    + simpl. by eapply no_wildcard_lookup.
    + by apply written_not_wildcard.
Qed.

Lemma init_tape_by_input_spec (c_in : ascii) (input : list ascii) (m : TM) :
  ∃ m' chain,
    init_tape_by_input (c_in :: input) m = Some (true, m')
    ∧ tape_inv m' chain 0
    ∧ states m' = states m
    ∧ contents (heap m') chain
      = written blank <$> (c_in :: filter (λ c, c ≠ newline) input)
    ∧ (no_wildcard (heap m) → no_wildcard (heap m')).
Proof.
  unfold init_tape_by_input. simpl.
  assert ((heap m ++ [Cell blank None None]) !! length (heap m)
          = Some (Cell blank None None)) as Hnew.
  { rewrite lookup_app_r by lia. by replace (length (heap m) - length (heap m)) with 0 by lia. }
  rewrite Hnew. simpl. rewrite set_value_written. simpl.
  match goal with |- context [init_tape_loop input ?m0] =>
    destruct (init_tape_loop_spec input m0 [length (heap m)] 0)
      as (m1 & chain & Hrun & Hinv & Hst & Hcont & Hnw1)
  end.
  { split; [|split; [by eexists|done]]. split; [apply NoDup_singleton|].
    intros [|i] x Hx; [|done]. injection Hx as <-. simpl.
    rewrite list_lookup_insert_eq by (rewrite length_app; simpl; lia). eauto. }
  { done. }
  rewrite Hrun. simpl.
  destruct (move_carriage_to_beginning_spec _ _ _ Hinv) as (m' & Hmv & Hinv' & Hh & Hst').
  rewrite Hmv. simpl. exists m', chain. split; [done|]. split; [done|].
  split; [by rewrite Hst', Hst|]. split.
  - rewrite Hh, Hcont. simpl. f_equal.
    unfold contents. simpl.
    by rewrite list_lookup_insert_eq by (rewrite length_app; simpl; lia).
  - intros Hnw. rewrite Hh. apply Hnw1. simpl.
    apply Forall_insert; [|by apply written_not_wildcard].
    apply Forall_app. split; [done|]. by repeat constructor.
Qed.

(** * Properties of the run *)

(** ** One pass through the loop *)

Lemma loop_body_no_rule (s : run_state) :
  find_rule (states (machine s)) (name (curr_state s)) (in_symbol (curr_state s)) = None →
  loop_body s = Some (Return true (printf s (no_rule_error (curr_state s)))).
Proof. intros H. unfold loop_body. by rewrite H. Qed.

(** With a rule found, the body writes, moves and computes the next state;
    only the debug dialogue can be left without a result. *)
Lemma loop_body_rule (s : run_state) (iter : state) (chain : list addr)
    (pos : nat) (old : ascii) :
  tape_inv (machine s) chain pos →
  contents (heap (machine s)) chain !! pos = Some old →
  find_rule (states (machine s)) (name (curr_state s)) (in_symbol (curr_state s))
  = Some iter →
  ∃ m' chain' pos' v,
    tape_inv m' chain' pos'
    ∧ states m' = states (machine s)
    ∧ (no_wildcard (heap (machine s)) → no_wildcard (heap m'))
    ∧ contents (heap m') chain' !! pos' = Some v
    ∧ (contents (heap m') chain', pos')
      = tape_move (move iter)
          (<[pos := written old (out_symbol iter)]>
             (contents (heap (machine s)) chain), pos)
    ∧ loop_body s
      = let next := state_of (next_name (name (curr_state s)) iter) v in
        match command s with
        | next_step =>
            '(cmd, rest, prompts) ← scan_debug_command (stdin s);
            Some (Next (RunState m' next cmd rest
                    (stdout s +:+ (render (contents (heap m') chain') +:+ nl)
                     +:+ print_state iter +:+ prompts)))
        | _ => Some (Next (RunState m' next (command s) (stdin s) (stdout s)))
        end.
Proof.
  intros Hinv Hold Hfind.
  destruct (write_head _ _ _ (out_symbol iter) old Hinv Hold)
    as (h & Hupd & Hinv1 & Hcont1 & Hnw1).
  destruct (move_carriage_spec (move iter) _ _ _ Hinv1)
    as (m' & chain' & pos' & Hmove & Hinv2 & Hst & Hcont2 & Hnw2).
  simpl in Hst, Hcont2, Hnw2.
  destruct (tape_inv_head _ _ _ Hinv2) as (a & c & Hcurr & Ha & Hc & _ & _ & Hv).
  exists m', chain', pos', (value c).
  split; [done|]. split; [done|]. split; [auto|]. split; [done|].
  split; [by rewrite Hcont2, Hcont1|].
  unfold loop_body. rewrite Hfind. simpl. rewrite Hupd. simpl.
  rewrite Hmove. simpl. rewrite Hcurr. simpl. rewrite Hc. simpl.
  rewrite (print_answer_spec _ _ _ Hinv2). simpl.
  unfold next_name, get_value. rewrite strcmp_eqb.
  destruct (decide (next_state iter = "*"));
    [rewrite bool_decide_eq_true_2 by done|rewrite bool_decide_eq_false_2 by done];
    done.
Qed.

Lemma halt_decide (n : string) :
  (strcmp n "halt" =? 0)%Z = bool_decide (n = "halt").
Proof. apply strcmp_eqb. Qed.

Lemma run_loop_running (fuel : nat) (s : run_state) :
  name (curr_state s) ≠ "halt" →
  run_loop (S fuel) s
  = match loop_body s with
    | None => Undefined
    | Some (Next s') => run_loop fuel s'
    | Some (Return ret s') => Returns (ret, s')
    end.
Proof. intros H. simpl. by rewrite halt_decide, bool_decide_eq_false_2. Qed.

Lemma run_loop_halted (fuel : nat) (s : run_state) :
  name (curr_state s) = "halt" →
  run_loop fuel s
  = match print_answer (machine s) with
    | None => Undefined
    | Some text => Returns (false, printf s text)
    end.
Proof. intros H. destruct fuel; simpl; by rewrite H. Qed.

(** A run that returns [false] has reached [halt], and its last output is the
    rendering of the final tape. *)
Lemma run_loop_halts (fuel : nat) (s s' : run_state) (chain : list addr) (pos : nat) :
  tape_inv (machine s) chain pos →
  run_loop fuel s = Returns (false, s') →
  ∃ chain' pos' pre,
    tape_inv (machine s') chain' pos'
    ∧ name (curr_state s') = "halt"
    ∧ stdout s' = pre +:+ render (contents (heap (machine s')) chain') +:+ nl
    ∧ (command s ≠ next_step → pre = stdout s).
Proof.
  revert s chain pos. induction fuel as [|fuel IH]; intros s chain pos Hinv Hrun.
  - simpl in Hrun. rewrite halt_decide in Hrun. case_bool_decide as Hhalt; [|done].
    simpl in Hrun. rewrite (print_answer_spec _ _ _ Hinv) in Hrun.
    injection Hrun as <-. by exists chain, pos, (stdout s).
  - destruct (decide (name (curr_state s) = "halt")) as [Hhalt|Hhalt].
    { rewrite run_loop_halted, (print_answer_spec _ _ _ Hinv) in Hrun by done.
      injection Hrun as <-. by exists chain, pos, (stdout s). }
    rewrite run_loop_running in Hrun by done.
    destruct (find_rule (states (machine s)) (name (curr_state s))
                (in_symbol (curr_state s))) as [iter|] eqn:Hfind;
      [|by rewrite loop_body_no_rule in Hrun].
    destruct (tape_inv_head _ _ _ Hinv) as (a & c & _ & _ & _ & _ & _ & Hold).
    destruct (loop_body_rule _ _ _ _ _ Hinv Hold Hfind)
      as (m' & chain' & pos' & v & Hinv' & _ & _ & _ & _ & Hbody).
    rewrite Hbody in Hrun. simpl in Hrun.
    destruct (command s) eqn:Hcmd.
    + destruct (scan_debug_command (stdin s)) as [[[cmd rest] prompts]|];
        [|done]. simpl in Hrun.
      eapply IH in Hrun as (chain'' & pos'' & pre & H1 & H2 & H3 & _);
        [|exact Hinv'].
      by exists chain'', pos'', pre.
    + eapply IH in Hrun as (chain'' & pos'' & pre & H1 & H2 & H3 & H4);
        [|exact Hinv'].
      exists chain'', pos'', pre. split; [done|]. split; [done|]. split; [done|].
      intros _. by apply H4.
    + eapply IH in Hrun as (chain'' & pos'' & pre & H1 & H2 & H3 & H4);
        [|exact Hinv'].
      exists chain'', pos'', pre. split; [done|]. split; [done|]. split; [done|].
      intros _. by apply H4.
Qed.

(** ** The tape of the input [11] *)

Lemma tape_11_init :
  init_tape_by_input ["1"; "1"]%char (Machine [] None unary_increment)
  = Some (true, tape_11).
Proof. reflexivity. Qed.

Lemma tape_11_inv : tape_inv tape_11 [0; 1] 0.
Proof.
  split; [split|split; [by eexists|done]].
  - by apply (bool_decide_unpack _).
  - intros [|[|i]] a Ha; simplify_eq/=; eauto.
Qed.

(** * Main results *)

(** ** The exit status after an engine-level error *)

(** Once the table and the tape are loaded, [main] returns 0 whatever
    [run_simulation] returns. *)
Lemma main_after_run (fuel : nat) (prog a1 a2 mode : string)
    (records : list state) (tape stdin : list ascii) (z : Z) (out : string) :
  Forall (λ r, valid_move (move r) = true) records →
  main fuel [prog; a1; a2; mode] (Some records) (Some tape) stdin = Returns (z, out) →
  (first_char mode = "d"%char ∨ first_char mode = "r"%char) →
  z = 0%Z.
Proof.
  intros Hv Hmain Hmode. unfold main in Hmain.
  rewrite !ascii_eqb_decide in Hmain.
  destruct Hmode as [Hmode|Hmode]; rewrite Hmode in Hmain; simpl in Hmain.
  all: destruct (fill_states records) as [r|] eqn:Hfill; [|done].
  all: destruct (fill_states_valid_Some _ _ Hv Hfill) as (table & _ & ->).
  all: simpl in Hmain.
  all: destruct tape as [|c_in tape]; [done|].
  all: match type of Hmain with context [init_tape_by_input _ ?m0] =>
         destruct (init_tape_by_input_spec c_in tape m0) as (m & chain & Hinit & _);
         rewrite Hinit in Hmain
       end; simpl in Hmain.
  all: destruct (run_simulation _ _ _ _ _) as [[ret s]| |]; try done.
  all: destruct (clean _); by simplify_eq.
Qed.

(** The unary increment of the input [11], in release mode and stepped
    through in debug mode. *)
Example unary_increment_release :
  main 3 ["a.out"; "source.txt"; "input.txt"; "r"]
       (Some unary_increment) (Some ["1"; "1"]%char) []
  = Returns (0%Z, "111" +:+ nl).
Proof. reflexivity. Qed.

Example unary_increment_debug :
  main 3 ["a.out"; "source.txt"; "input.txt"; "d"]
       (Some unary_increment) (Some ["1"; "1"]%char) ["n"; newline; "c"]%char
  = Returns (0%Z,
      hello +:+ "11" +:+ nl
      +:+ "11" +:+ nl +:+ "Last executed state: 0 1 1 r 0" +:+ nl
      +:+ "111" +:+ nl).
Proof. reflexivity. Qed.

(** C2. On the table with the single rule [0 1 1 r 0] and the input [0], in
    release mode, no rule matches: the diagnostic is printed and [main]
    returns 0. *)
Theorem engine_error_exit_status :
  main 1 ["a.out"; "source.txt"; "input.txt"; "r"]
       (Some [State "0" "1" "1" "r" "0"]) (Some ["0"%char]) []
  = Returns (0%Z, "Error! There is no state 0 with symbol 0" +:+ nl).
Proof. reflexivity. Qed.

(** ** The first character of the input *)

(** C3. A line terminator that is the first character of the input is not
    skipped: on the input of a newline followed by [1] the tape has two
    cells, the first one holding the newline, and the newline is printed with
    the tape. *)
Theorem leading_newline_makes_a_cell :
  let m := Machine [Cell newline None (Some 1); Cell "1" (Some 0) None] (Some 0) [] in
  init_tape_by_input [newline; "1"%char] (Machine [] None []) = Some (true, m)
  ∧ tape_inv m [0; 1] 0
  ∧ contents (heap m) [0; 1] = [newline; "1"%char]
  ∧ print_answer m = Some (String newline "1" +:+ nl).
Proof.
  split; [reflexivity|]. split; [|split; reflexivity].
  split; [split|split; [by eexists|done]].
  - by apply (bool_decide_unpack _).
  - intros [|[|i]] a Ha; simplify_eq/=; eauto.
Qed.

(** ** Writing under the head *)

(** C4. Writing the wildcard to the cell under the head leaves every cell as
    it was; writing any other symbol sets the cell under the head to that
    symbol and leaves the other cells. *)
Theorem write_respects_wildcard (m : TM) (chain : list addr) (pos : nat) (v : ascii) :
  tape_inv m chain pos →
  (∀ c, set_value c wildcard = c)
  ∧ (∀ c, v ≠ wildcard → get_value (set_value c v) = v)
  ∧ ∃ h, update (heap m) (curr m) (λ c, set_value c v) = Some h
         ∧ tape_inv (with_heap m h) chain pos
         ∧ contents h chain
           = if decide (v = wildcard) then contents (heap m) chain
             else <[pos := v]> (contents (heap m) chain).
Proof.
  intros Hinv. split; [done|]. split.
  { intros c Hv. rewrite set_value_written. simpl.
    unfold written. by rewrite decide_False. }
  destruct (tape_inv_head _ _ _ Hinv) as (a & c & _ & _ & _ & _ & _ & Hold).
  destruct (write_head _ _ _ v _ Hinv Hold) as (h & Hupd & Hinv' & Hcont & _).
  exists h. split; [done|]. split; [done|].
  rewrite Hcont. unfold written. case_decide; [|done].
  by apply list_insert_id.
Qed.

Lemma write_respects_wildcard_witness :
  ∃ h, update (heap tape_11) (curr tape_11) (λ c, set_value c wildcard) = Some h
       ∧ contents h [0; 1] = ["1"; "1"]%char.
Proof.
  destruct (write_respects_wildcard tape_11 [0; 1] 0 wildcard tape_11_inv)
    as (_ & _ & h & Hupd & _ & Hcont).
  exists h. split; [exact Hupd|exact Hcont].
Defined.

(** ** A state and symbol with no rule *)

(** C5. When the loop is entered in a state other than [halt] and no rule
    matches the state name and the symbol, the run returns at once: the
    message naming that state and symbol is the only thing printed, and the
    machine is the one the pass started from. *)
Theorem no_matching_rule_ends_run (fuel : nat) (s : run_state) :
  name (curr_state s) ≠ "halt" →
  find_rule (states (machine s)) (name (curr_state s)) (in_symbol (curr_state s)) = None →
  ∃ s',
    run_loop (S fuel) s = Returns (true, s')
    ∧ machine s' = machine s
    ∧ stdin s' = stdin s
    ∧ stdout s'
      = stdout s +:+ "Error! There is no state " +:+ name (curr_state s)
        +:+ " with symbol " +:+ String (in_symbol (curr_state s)) "" +:+ nl.
Proof.
  intros Hhalt Hfind. exists (printf s (no_rule_error (curr_state s))).
  by rewrite run_loop_running, loop_body_no_rule.
Qed.

Lemma no_matching_rule_ends_run_witness :
  ∃ s',
    run_loop 1 (RunState (Machine [Cell "0" None None] (Some 0) [State "0" "1" "1" "r" "0"])
                  (state_of "0" "0") non_debug [] "")
    = Returns (true, s')
    ∧ stdout s' = "Error! There is no state 0 with symbol 0" +:+ nl.
Proof.
  destruct (no_matching_rule_ends_run 0
              (RunState (Machine [Cell "0" None None] (Some 0) [State "0" "1" "1" "r" "0"])
                 (state_of "0" "0") non_debug [] ""))
    as (s' & Hrun & _ & _ & Hout).
  - discriminate.
  - reflexivity.
  - exists s'. split; [exact Hrun|exact Hout].
Defined.

(** ** The next state *)

(** C6. A pass of the loop that applies the rule [iter] ends in a state
    whose name is the one it started with when [iter] names the wildcard as
    its next state, and the next state of [iter] otherwise.  The pass does
    end, unless in single-step mode the debug dialogue has no command
    left. *)
Theorem next_state_wildcard_keeps_name (s : run_state) (iter : state)
    (chain : list addr) (pos : nat) :
  tape_inv (machine s) chain pos →
  find_rule (states (machine s)) (name (curr_state s)) (in_symbol (curr_state s))
  = Some iter →
  (command s = next_step → is_Some (scan_debug_command (stdin s))) →
  ∃ s',
    loop_body s = Some (Next s')
    ∧ (next_state iter = "*" → name (curr_state s') = name (curr_state s))
    ∧ (next_state iter ≠ "*" → name (curr_state s') = next_state iter).
Proof.
  intros Hinv Hfind Hscan.
  destruct (tape_inv_head _ _ _ Hinv) as (a & c & _ & _ & _ & _ & _ & Hold).
  destruct (loop_body_rule _ _ _ _ _ Hinv Hold Hfind)
    as (m' & chain' & pos' & v & _ & _ & _ & _ & _ & Hbody).
  rewrite Hbody. simpl. unfold next_name.
  destruct (command s) eqn:Hcmd.
  - destruct Hscan as [[[cmd rest] prompts] ->]; [done|]. simpl.
    eexists. split; [done|]. simpl. by case_decide.
  - eexists. split; [done|]. simpl. by case_decide.
  - eexists. split; [done|]. simpl. by case_decide.
Qed.

Lemma next_state_wildcard_keeps_name_witness :
  ∃ s',
    loop_body (RunState tape_11 (state_of "0" "1") non_debug [] "") = Some (Next s')
    ∧ name (curr_state s') = "0".
Proof.
  destruct (next_state_wildcard_keeps_name
              (RunState tape_11 (state_of "0" "1") non_debug [] "")
              (State "0" "1" "1" "r" "0") [0; 1] 0)
    as (s' & Hbody & _ & Hname).
  - exact tape_11_inv.
  - reflexivity.
  - discriminate.
  - exists s'. split; [exact Hbody|]. apply Hname. discriminate.
Defined.

(** ** Loading the table *)



(** ** The rendering *)

(** C8. [print_answer] prints the symbols of the tape from the leftmost cell
    to the rightmost without the blanks, and a newline.  A run that reaches
    [halt] ends with that line for the final tape; outside the single-step
    mode it prints nothing else. *)
Theorem render_omits_blanks (fuel : nat) (s : run_state) (chain : list addr) (pos : nat) :
  tape_inv (machine s) chain pos →
  print_answer (machine s)
  = Some (string_of_list_ascii
            (filter (λ c, c ≠ blank) (contents (heap (machine s)) chain)) +:+ nl)
  ∧ ∀ s', run_loop fuel s = Returns (false, s') →
      ∃ chain' pos' pre,
        tape_inv (machine s') chain' pos'
        ∧ stdout s'
          = pre +:+ string_of_list_ascii
                      (filter (λ c, c ≠ blank) (contents (heap (machine s')) chain'))
            +:+ nl
        ∧ (command s ≠ next_step → pre = stdout s).
Proof.
  intros Hinv. split; [exact (print_answer_spec _ _ _ Hinv)|].
  intros s' Hrun.
  destruct (run_loop_halts fuel s s' chain pos Hinv Hrun)
    as (chain' & pos' & pre & H1 & _ & H2 & H3).
  by exists chain', pos', pre.
Qed.

Lemma render_omits_blanks_witness :
  print_answer tape_11 = Some ("11" +:+ nl)
  ∧ ∃ s', run_loop 3 (RunState tape_11 (state_of "0" "1") non_debug [] "")
          = Returns (false, s')
          ∧ stdout s' = "111" +:+ nl.
Proof.
  destruct (render_omits_blanks 3
              (RunState tape_11 (state_of "0" "1") non_debug [] "") [0; 1] 0
              tape_11_inv) as [Hprint _].
  split; [exact Hprint|].
  eexists. split; reflexivity.
Defined.

(** ** Moving the head *)

Lemma move_all_spec (directions : list ascii) (m : TM) (chain : list addr) (pos : nat) :
  tape_inv m chain pos →
  ∃ m' chain' pos',
    move_all directions m = Some (true, m')
    ∧ tape_inv m' chain' pos'
    ∧ (contents (heap m') chain', pos')
      = foldl (λ t d, tape_move d t) (contents (heap m) chain, pos) directions.
Proof.
  revert m chain pos.
  induction directions as [|d directions IH]; intros m chain pos Hinv.
  { by exists m, chain, pos. }
  destruct (move_carriage_spec d _ _ _ Hinv)
    as (m1 & chain1 & pos1 & Hmove & Hinv1 & _ & Hcont & _).
  destruct (IH _ _ _ Hinv1) as (m' & chain' & pos' & Hall & Hinv' & Hcont').
  exists m', chain', pos'. split; [by simpl; rewrite Hmove|].
  split; [done|]. by rewrite Hcont', Hcont.
Qed.

(** C9. Whatever the sequence of moves, each one succeeds, and afterwards the
    head is on a cell of the chain, which [get_value] and [set_value] find in
    the heap.  The tape is the one the moves make on a sequence of symbols
    that gets a blank at the end the head leaves it by. *)
Theorem head_stays_on_a_cell (directions : list ascii) (m : TM)
    (chain : list addr) (pos : nat) :
  tape_inv m chain pos →
  ∃ m' chain' pos' c,
    move_all directions m = Some (true, m')
    ∧ tape_inv m' chain' pos'
    ∧ load (heap m') (curr m') = Some c
    ∧ contents (heap m') chain' !! pos' = Some (get_value c)
    ∧ (contents (heap m') chain', pos')
      = foldl (λ t d, tape_move d t) (contents (heap m) chain, pos) directions.
Proof.
  intros Hinv.
  destruct (move_all_spec directions _ _ _ Hinv) as (m' & chain' & pos' & H1 & H2 & H3).
  destruct (tape_inv_head _ _ _ H2) as (a & c & Hcurr & _ & Hc & _ & _ & Hv).
  exists m', chain', pos', c. rewrite Hcurr.
  split; [done|]. split; [done|]. split; [by apply load_Some|]. by split.
Qed.

Lemma head_stays_on_a_cell_witness :
  ∃ m' chain' pos' c,
    move_all ["l"; "l"; "r"; "r"; "r"; "r"; "*"]%char tape_11 = Some (true, m')
    ∧ load (heap m') (curr m') = Some c
    ∧ get_value c = blank
    ∧ (contents (heap m') chain', pos') = (["_"; "_"; "1"; "1"; "_"]%char, 4).
Proof.
  destruct (head_stays_on_a_cell ["l"; "l"; "r"; "r"; "r"; "r"; "*"]%char
              tape_11 [0; 1] 0 tape_11_inv)
    as (m' & chain' & pos' & c & Hmove & _ & Hload & Hv & Hcont).
  exists m', chain', pos', c.
  split; [exact Hmove|]. split; [exact Hload|].
  split; [|exact Hcont].
  injection Hcont as Hcells ->. rewrite Hcells in Hv. by injection Hv.
Defined.

(** ** The wildcard is never on the tape *)

Lemma reachable_inv (table : list state) (input : list ascii) (mode : ascii)
    (stdin0 : list ascii) (stdout0 : string) (s : run_state) :
  reachable table input mode stdin0 stdout0 s →
  no_wildcard (heap (machine s)) ∧ ∃ chain pos, tape_inv (machine s) chain pos.
Proof.
  induction 1 as [m s Hinit Hpro|s s' _ [Hnw (chain & pos & Hinv)] Hhalt Hbody].
  - destruct input as [|c_in input]; [done|].
    destruct (init_tape_by_input_spec c_in input (Machine [] None table))
      as (m' & chain & Hinit' & Hinv & _ & _ & Hnw).
    assert (m' = m) as -> by congruence.
    assert (machine s = m) as ->.
    { unfold run_prologue in Hpro.
      destruct (if (mode =? "d")%char then _ else _) as [[[cmd rest] out]|];
        [|done].
      simpl in Hpro. destruct (load _ _); [|done]. by simplify_eq/=. }
    split; [by apply Hnw; constructor|by exists chain, 0].
  - destruct (find_rule (states (machine s)) (name (curr_state s))
                (in_symbol (curr_state s))) as [iter|] eqn:Hfind;
      [|by rewrite loop_body_no_rule in Hbody].
    destruct (tape_inv_head _ _ _ Hinv) as (a & c & _ & _ & _ & _ & _ & Hold).
    destruct (loop_body_rule _ _ _ _ _ Hinv Hold Hfind)
      as (m' & chain' & pos' & v & Hinv' & _ & Hnw' & _ & _ & Heq).
    rewrite Heq in Hbody. simpl in Hbody.
    assert (machine s' = m') as ->.
    { destruct (command s);
        [destruct (scan_debug_command _) as [[[cmd rest] prompts]|]|..];
        by simplify_eq/=. }
    split; [auto|by exists chain', pos'].
Qed.

(** C10. In every state a run passes through, no cell of the heap holds the
    wildcard.  The tape built from an input has one cell for its first
    character and one for each later character that is not a newline; the
    cell of a wildcard character holds the blank, every other cell its
    character. *)
Theorem wildcard_never_on_tape (table : list state) (input : list ascii) (mode : ascii)
    (stdin0 : list ascii) (stdout0 : string) (s : run_state) :
  reachable table input mode stdin0 stdout0 s →
  Forall (λ c, get_value c ≠ wildcard) (heap (machine s))
  ∧ ∃ c_in rest m chain,
      input = c_in :: rest
      ∧ init_tape_by_input input (Machine [] None table) = Some (true, m)
      ∧ tape_inv m chain 0
      ∧ contents (heap m) chain
        = (λ v, if decide (v = wildcard) then blank else v)
            <$> (c_in :: filter (λ c, c ≠ newline) rest).
Proof.
  intros Hreach. split; [by apply (reachable_inv _ _ _ _ _ _ Hreach)|].
  assert (∃ m, init_tape_by_input input (Machine [] None table) = Some (true, m))
    as [m Hinit].
  { clear -Hreach. induction Hreach; eauto. }
  destruct input as [|c_in rest]; [done|].
  destruct (init_tape_by_input_spec c_in rest (Machine [] None table))
    as (m' & chain & Hinit' & Hinv & _ & Hcont & _).
  by exists c_in, rest, m', chain.
Qed.

Lemma wildcard_never_on_tape_witness :
  Forall (λ c, get_value c ≠ wildcard)
    [Cell "1" None (Some 1); Cell "_" (Some 0) (Some 2); Cell "1" (Some 1) None]
  ∧ ∃ c_in rest m chain,
      ["1"; "*"; "1"]%char = c_in :: rest
      ∧ init_tape_by_input ["1"; "*"; "1"]%char (Machine [] None unary_increment)
        = Some (true, m)
      ∧ tape_inv m chain 0
      ∧ contents (heap m) chain
        = (λ v, if decide (v = wildcard) then blank else v)
            <$> (c_in :: filter (λ c, c ≠ newline) rest).
Proof.
  apply (wildcard_never_on_tape unary_increment ["1"; "*"; "1"]%char "r" [] ""
           (RunState
              (Machine [Cell "1" None (Some 1); Cell "_" (Some 0) (Some 2);
                        Cell "1" (Some 1) None] (Some 0) unary_increment)
              (state_of "0" "1") non_debug [] "")).
  eapply reachable_start; reflexivity.
Defined.

(** * Further properties *)

(** ** The rule table *)

(** X1. The comparator puts two wildcard rules of one state before each
    other, and a wildcard rule before itself: it is not a strict order. *)
Theorem comparator_not_strict (a b : state) :
  name a = name b → in_symbol a = wildcard → in_symbol b = wildcard →
  comparator a b = true ∧ comparator b a = true ∧ comparator a a = true.
Proof.
  intros Hname Ha Hb. rewrite !comparator_spec. auto.
Qed.

Lemma comparator_not_strict_witness :
  comparator (State "0" "*" "a" "r" "0") (State "0" "*" "b" "l" "1") = true
  ∧ comparator (State "0" "*" "b" "l" "1") (State "0" "*" "a" "r" "0") = true
  ∧ comparator (State "0" "*" "a" "r" "0") (State "0" "*" "a" "r" "0") = true.
Proof.
  apply (comparator_not_strict (State "0" "*" "a" "r" "0") (State "0" "*" "b" "l" "1"));
    reflexivity.
Defined.








(** ** The debug dialogue *)

Lemma scan_debug_command_app (skipped : list ascii) (c : ascii) (rest : list ascii) :
  Forall (λ x, x ≠ "n"%char ∧ x ≠ "c"%char) skipped →
  c = "n"%char ∨ c = "c"%char →
  scan_debug_command (skipped ++ c :: rest)
  = Some (command_of c, rest, prompts_for skipped)
  ∧ scan_debug_command skipped = None.
Proof.
  intros Hskip Hc. induction Hskip as [|x skipped [Hn Hcc] _ [IH1 IH2]]; simpl.
  { split; [|done]. by destruct Hc as [-> | ->]. }
  rewrite !ascii_eqb_decide, !bool_decide_eq_false_2 by done.
  rewrite IH1, IH2. simpl. split; [|done].
  by destruct (decide (x = newline)) as [->|Hx];
    [|rewrite bool_decide_eq_false_2 by done].
Qed.


(** X4. [scan_debug_command] skips the characters before the first [n] or
    [c], printing the prompt once for each skipped character other than a
    newline; it returns the command of that [n] or [c] and leaves what
    follows it unread.  An input without [n] and [c] gives no command. *)
Theorem scan_debug_command_skips (skipped : list ascii) (c : ascii) (rest : list ascii) :
  Forall (λ x, x ≠ "n"%char ∧ x ≠ "c"%char) skipped →
  c = "n"%char ∨ c = "c"%char →
  scan_debug_command (skipped ++ c :: rest)
  = Some (command_of c, rest, prompts_for skipped)
  ∧ scan_debug_command skipped = None.
Proof. apply scan_debug_command_app. Qed.

Lemma scan_debug_command_skips_witness :
  scan_debug_command (["x"; newline; "y"]%char ++ "c"%char :: ["n"]%char)
  = Some (until_end, ["n"]%char, debug_prompt +:+ debug_prompt)
  ∧ scan_debug_command ["x"; newline; "y"]%char = None.
Proof.
  apply (scan_debug_command_skips ["x"; newline; "y"]%char "c" ["n"]%char).
  - repeat constructor; discriminate.
  - right. reflexivity.
Defined.

(** ** [main]: arguments, files and the exit status *)

Lemma read_records_true (records states : list state) :
  (read_records records states).1 = true
  ↔ Forall (λ r, valid_move (move r) = true) records.
Proof.
  revert states. induction records as [|r records IH]; intros states; simpl.
  { split; [by constructor|done]. }
  destruct (valid_move (move r)) eqn:Hr; simpl.
  - rewrite IH. split; [by constructor|by inversion 1].
  - split; [done|]. inversion 1; congruence.
Qed.

Lemma fill_states_invalid (records : list state) :
  ¬ Forall (λ r, valid_move (move r) = true) records →
  ∃ states, fill_states records = Some (false, states, move_error).
Proof.
  intros Hv. rewrite <- (read_records_true records []) in Hv.
  unfold fill_states.
  destruct (read_records records []) as [[] states]; [done|by exists states].
Qed.

(** X5. With other than three arguments, or with a mode that starts with
    neither [d] nor [r], [main] prints the usage line with the name of the
    program and returns -1, whatever the files hold.  With good arguments and
    a file that does not open, it prints [Invalid input file(s)] and returns
    -1. *)
Theorem main_rejects_bad_invocation (fuel : nat) (prog : string) (args : list string)
    (source : option (list state)) (input : option (list ascii)) (stdin : list ascii) :
  (¬ (∃ a1 a2 mode, args = [a1; a2; mode]
        ∧ (first_char mode = "d"%char ∨ first_char mode = "r"%char)) →
   main fuel (prog :: args) source input stdin = Returns ((-1)%Z, usage prog))
  ∧ ((∃ a1 a2 mode, args = [a1; a2; mode]
        ∧ (first_char mode = "d"%char ∨ first_char mode = "r"%char)) →
     source = None ∨ input = None →
     main fuel (prog :: args) source input stdin = Returns ((-1)%Z, invalid_files)).
Proof.
  split.
  - intros Hbad. destruct args as [|a1 [|a2 [|mode [|]]]]; try done.
    unfold main. rewrite !ascii_eqb_decide.
    destruct (decide (first_char mode = "d"%char)) as [Hd|Hd].
    { destruct Hbad. exists a1, a2, mode. auto. }
    destruct (decide (first_char mode = "r"%char)) as [Hr|Hr].
    { destruct Hbad. exists a1, a2, mode. auto. }
    by rewrite !bool_decide_eq_false_2.
  - intros (a1 & a2 & mode & -> & Hmode) Hfile.
    unfold main. rewrite !ascii_eqb_decide.
    assert (negb (bool_decide (first_char mode = "d"%char))
            && negb (bool_decide (first_char mode = "r"%char)) = false) as ->.
    { destruct Hmode as [-> | ->]; done. }
    destruct Hfile as [-> | ->]; [done|by destruct source].
Qed.

Lemma main_rejects_bad_invocation_witness :
  main 5 ["a.out"; "source.txt"; "input.txt"] (Some unary_increment)
       (Some ["1"%char]) []
  = Returns ((-1)%Z, usage "a.out")
  ∧ main 5 ["a.out"; "source.txt"; "input.txt"; "release"] None
         (Some ["1"%char]) []
    = Returns ((-1)%Z, invalid_files).
Proof.
  split.
  - apply (main_rejects_bad_invocation 5 "a.out" ["source.txt"; "input.txt"]).
    intros (a1 & a2 & mode & Heq & _). discriminate.
  - apply (main_rejects_bad_invocation 5 "a.out"
             ["source.txt"; "input.txt"; "release"]).
    + exists "source.txt", "input.txt", "release". split; [reflexivity|].
      right. reflexivity.
    + left. reflexivity.
Defined.

(** X6. When [main] returns, it returns 0 or -1, and it returns 0 exactly
    when it had three arguments with a mode starting with [d] or [r], both
    files opened and every record of the program had a valid move: that is,
    exactly when the machine was run, however the run ended. *)
Theorem main_exit_status (fuel : nat) (argv : list string)
    (source : option (list state)) (input : option (list ascii))
    (stdin : list ascii) (z : Z) (out : string) :
  main fuel argv source input stdin = Returns (z, out) →
  (z = 0%Z ∨ z = (-1)%Z)
  ∧ (z = 0%Z
     ↔ ∃ prog a1 a2 mode records tape,
         argv = [prog; a1; a2; mode]
         ∧ (first_char mode = "d"%char ∨ first_char mode = "r"%char)
         ∧ source = Some records ∧ input = Some tape
         ∧ Forall (λ r, valid_move (move r) = true) records).
Proof.
  intros Hmain.
  assert (z = (-1)%Z → ¬ z = 0%Z) as Hneg by lia.
  destruct argv as [|prog args]; [done|].
  assert ((∃ a1 a2 mode, args = [a1; a2; mode]
              ∧ (first_char mode = "d"%char ∨ first_char mode = "r"%char))
          ∨ ¬ (∃ a1 a2 mode, args = [a1; a2; mode]
              ∧ (first_char mode = "d"%char ∨ first_char mode = "r"%char)))
    as [(a1 & a2 & mode & -> & Hmode)|Hbad].
  { destruct args as [|a1 [|a2 [|mode [|]]]];
      try (right; by intros (? & ? & ? & ? & _)).
    destruct (decide (first_char mode = "d"%char ∨ first_char mode = "r"%char))
      as [Hm|Hm]; [left; eauto|right].
    intros (? & ? & ? & Heq & ?). by injection Heq as <- <- <-. }
  2:{ rewrite (proj1 (main_rejects_bad_invocation _ _ _ _ _ _) Hbad) in Hmain.
      injection Hmain as <- <-. split; [by right|]. split; [done|].
      intros (? & a1 & a2 & mode & ? & ? & Heq & Hm & _). destruct Hbad.
      simplify_eq. by exists a1, a2, mode. }
  destruct source as [records|], input as [tape|].
  2-4: rewrite (proj2 (main_rejects_bad_invocation _ _ _ _ _ _)) in Hmain
         by eauto;
       injection Hmain as <- <-; split; [by right|]; split; [done|];
       by intros (? & ? & ? & ? & ? & ? & _ & _ & ? & ? & _).
  destruct (decide (Forall (λ r, valid_move (move r) = true) records)) as [Hv|Hv].
  - assert (z = 0%Z) as -> by by eapply main_after_run.
    split; [by left|]. split; [|done]. intros _.
    by exists prog, a1, a2, mode, records, tape.
  - assert (z = (-1)%Z) as ->.
    { destruct (fill_states_invalid _ Hv) as (states & Hfill).
      unfold main in Hmain. rewrite !ascii_eqb_decide, Hfill in Hmain.
      destruct Hmode as [Hm|Hm]; rewrite Hm in Hmain; simpl in Hmain;
        by injection Hmain as <- <-. }
    split; [by right|]. split; [done|].
    intros (? & ? & ? & ? & ? & ? & _ & _ & Hs & _ & Hall).
    injection Hs as <-. done.
Qed.

Lemma main_exit_status_witness :
  (0%Z = 0%Z ∨ 0%Z = (-1)%Z)
  ∧ (0%Z = 0%Z
     ↔ ∃ prog a1 a2 mode records tape,
         ["a.out"; "source.txt"; "input.txt"; "r"] = [prog; a1; a2; mode]
         ∧ (first_char mode = "d"%char ∨ first_char mode = "r"%char)
         ∧ Some unary_increment = Some records ∧ Some ["1"; "1"]%char = Some tape
         ∧ Forall (λ r, valid_move (move r) = true) records).
Proof.
  apply (main_exit_status 3 ["a.out"; "source.txt"; "input.txt"; "r"]
           (Some unary_increment) (Some ["1"; "1"]%char) [] 0%Z ("111" +:+ nl)).
  reflexivity.
Defined.

(** ** The tape *)

Lemma filter_written_blank (l : list ascii) :
  filter (λ c, c ≠ blank) (written blank <$> l)
  = filter (λ c, c ≠ blank ∧ c ≠ wildcard) l.
Proof.
  induction l as [|v l IH]; [done|]. rewrite fmap_cons, !filter_cons, IH.
  unfold written. destruct (decide (v = wildcard)) as [->|Hw].
  - rewrite decide_False by (by intros ?). by rewrite decide_False by (by intros [_ ?]).
  - destruct (decide (v = blank)) as [->|Hb].
    + rewrite decide_False by (by intros ?). by rewrite decide_False by (by intros [? _]).
    + rewrite decide_True by done. by rewrite decide_True by done.
Qed.

Lemma filter_all {A} (P : A → Prop) `{∀ x, Decision (P x)} (l : list A) :
  Forall P l → filter P l = l.
Proof.
  induction 1 as [|x l Hx _ IH]; [done|].
  by rewrite filter_cons, decide_True, IH.
Qed.

(** X7. After [init_tape_by_input], [print_answer] prints the first
    character of the file and the later characters that are not newlines,
    leaving out the blanks and the wildcards; a file without blanks,
    wildcards and newlines is printed back as it is. *)
Theorem tape_file_printed_back (c_in : ascii) (input : list ascii) (m0 : TM) :
  ∃ m,
    init_tape_by_input (c_in :: input) m0 = Some (true, m)
    ∧ print_answer m
      = Some (string_of_list_ascii
                (filter (λ c, c ≠ blank ∧ c ≠ wildcard)
                   (c_in :: filter (λ c, c ≠ newline) input)) +:+ nl)
    ∧ (Forall (λ c, c ≠ blank ∧ c ≠ wildcard ∧ c ≠ newline) (c_in :: input) →
       print_answer m = Some (string_of_list_ascii (c_in :: input) +:+ nl)).
Proof.
  destruct (init_tape_by_input_spec c_in input m0)
    as (m & chain & Hinit & Hinv & _ & Hcont & _).
  exists m. split; [done|].
  assert (print_answer m
          = Some (string_of_list_ascii
                    (filter (λ c, c ≠ blank ∧ c ≠ wildcard)
                       (c_in :: filter (λ c, c ≠ newline) input)) +:+ nl)) as Hprint.
  { rewrite (print_answer_spec _ _ _ Hinv). unfold render.
    by rewrite Hcont, filter_written_blank. }
  split; [done|]. intros Hall. rewrite Hprint. do 3 f_equal.
  apply Forall_cons in Hall as [Hc Hall].
  rewrite (filter_all (λ c, c ≠ newline) input)
    by (eapply Forall_impl; [exact Hall|]; by intros c (_ & _ & ?)).
  apply filter_all. constructor; [by destruct Hc as (? & ? & _)|].
  eapply Forall_impl; [exact Hall|]. by intros c (? & ? & _).
Qed.

Lemma tape_file_printed_back_witness :
  ∃ m,
    init_tape_by_input ["1"; "0"; "1"]%char (Machine [] None []) = Some (true, m)
    ∧ print_answer m = Some ("101" +:+ nl).
Proof.
  destruct (tape_file_printed_back "1" ["0"; "1"]%char (Machine [] None []))
    as (m & Hinit & _ & Hprint).
  exists m. split; [exact Hinit|]. apply Hprint.
  repeat constructor; discriminate.
Defined.

Lemma string_app_nil_r (s : string) : s +:+ "" = s.
Proof.
  induction s as [|c s IH]; [done|].
  change (String c (s +:+ "") = String c s). by rewrite IH.
Qed.

Lemma render_app (l1 l2 : list ascii) :
  render (l1 ++ l2) = render l1 +:+ render l2.
Proof.
  induction l1 as [|v l1 IH]; [done|]. simpl.
  rewrite !render_cons, IH. by destruct (v =? blank)%char.
Qed.

Lemma render_tape_move (direction : ascii) (cells : list ascii) (pos : nat) :
  render (tape_move direction (cells, pos)).1 = render cells.
Proof.
  unfold tape_move. repeat case_decide; try done; simpl.
  - rewrite render_app. apply string_app_nil_r.
  - by destruct pos.
Qed.

(** X8. Moving the head, however often and in whatever directions, does not
    change what [print_answer] prints: the cells a move adds are blank. *)
Theorem moves_keep_the_rendering (directions : list ascii) (m : TM)
    (chain : list addr) (pos : nat) :
  tape_inv m chain pos →
  ∃ m', move_all directions m = Some (true, m')
        ∧ states m' = states m
        ∧ print_answer m' = print_answer m.
Proof.
  intros Hinv. revert m chain pos Hinv.
  induction directions as [|d directions IH]; intros m chain pos Hinv.
  { by exists m. }
  destruct (move_carriage_spec d _ _ _ Hinv)
    as (m1 & chain1 & pos1 & Hmove & Hinv1 & Hst & Hcont & _).
  destruct (IH _ _ _ Hinv1) as (m' & Hall & Hst' & Hprint).
  exists m'. split; [by simpl; rewrite Hmove|]. split; [congruence|].
  rewrite Hprint, (print_answer_spec _ _ _ Hinv1), (print_answer_spec _ _ _ Hinv).
  do 2 f_equal.
  rewrite <- (render_tape_move d (contents (heap m) chain) pos).
  by rewrite <- Hcont.
Qed.

Lemma moves_keep_the_rendering_witness :
  ∃ m', move_all ["l"; "l"; "r"; "r"; "r"; "r"]%char tape_11 = Some (true, m')
        ∧ print_answer m' = Some ("11" +:+ nl).
Proof.
  destruct (moves_keep_the_rendering ["l"; "l"; "r"; "r"; "r"; "r"]%char
              tape_11 [0; 1] 0 tape_11_inv) as (m' & Hmove & _ & Hprint).
  exists m'. split; [exact Hmove|]. rewrite Hprint. reflexivity.
Defined.

(** X16. A move to the right followed by a move to the left, and a move to
    the left followed by a move to the right, bring the head back over the
    symbol it was on; the symbols of the tape are the same, with a blank
    added at the end the head went over. *)
Theorem move_there_and_back (m : TM) (chain : list addr) (pos : nat) (v : ascii) :
  tape_inv m chain pos →
  contents (heap m) chain !! pos = Some v →
  (∃ m' chain',
     move_all ["r"; "l"]%char m = Some (true, m')
     ∧ tape_inv m' chain' pos
     ∧ contents (heap m') chain'
       = contents (heap m) chain
         ++ (if decide (S pos = length chain) then [blank] else [])
     ∧ contents (heap m') chain' !! pos = Some v)
  ∧ (∃ m' chain' pos',
       move_all ["l"; "r"]%char m = Some (true, m')
       ∧ tape_inv m' chain' pos'
       ∧ contents (heap m') chain'
         = (if decide (pos = 0) then [blank] else []) ++ contents (heap m) chain
       ∧ contents (heap m') chain' !! pos' = Some v).
Proof.
  intros Hinv Hv. apply lookup_lt_Some in Hv as Hpos.
  rewrite contents_length in Hpos. split.
  - destruct (move_all_spec ["r"; "l"]%char _ _ _ Hinv)
      as (m' & chain' & pos' & Hmove & Hinv' & Hcont).
    simpl in Hcont. rewrite contents_length in Hcont.
    injection Hcont as Hcells ->.
    exists m', chain'. split; [done|]. split; [done|]. rewrite Hcells.
    case_decide; [|by rewrite app_nil_r].
    split; [done|]. by rewrite lookup_app_l by (by rewrite contents_length).
  - destruct (move_all_spec ["l"; "r"]%char _ _ _ Hinv)
      as (m' & chain' & pos' & Hmove & Hinv' & Hcont).
    exists m', chain', pos'. split; [done|]. split; [done|].
    simpl in Hcont. destruct pos as [|p]; simpl in Hcont.
    + rewrite contents_length in Hcont.
      rewrite decide_False in Hcont by lia.
      injection Hcont as -> ->. by rewrite decide_True.
    + rewrite contents_length in Hcont.
      rewrite decide_False in Hcont by lia.
      injection Hcont as -> ->. by rewrite decide_False.
Qed.

Lemma move_there_and_back_witness :
  (∃ m' chain',
     move_all ["r"; "l"]%char (with_curr tape_11 (Some 1)) = Some (true, m')
     ∧ contents (heap m') chain' = ["1"; "1"]%char ++ [blank])
  ∧ (∃ m' chain' pos',
       move_all ["l"; "r"]%char (with_curr tape_11 (Some 1)) = Some (true, m')
       ∧ contents (heap m') chain' = [] ++ ["1"; "1"]%char
       ∧ contents (heap m') chain' !! pos' = Some "1"%char).
Proof.
  destruct (move_there_and_back (with_curr tape_11 (Some 1)) [0; 1] 1 "1")
    as [(m1 & chain1 & Hm1 & _ & Hc1 & _) (m2 & chain2 & pos2 & Hm2 & _ & Hc2 & Hv2)].
  - destruct tape_11_inv as (Hl & _ & _). split; [exact Hl|].
    split; [by eexists|reflexivity].
  - reflexivity.
  - split.
    + exists m1, chain1. split; [exact Hm1|exact Hc1].
    + exists m2, chain2, pos2. split; [exact Hm2|]. split; [exact Hc2|exact Hv2].
Defined.

(** X9. On a tape, [move_carriage_to_beginning] puts the head on the leftmost
    cell, the one with no left neighbour, and changes nothing else; done
    again, it changes nothing. *)
Theorem rewind_to_leftmost (m : TM) (chain : list addr) (pos : nat) :
  tape_inv m chain pos →
  ∃ m' c,
    move_carriage_to_beginning m = Some m'
    ∧ tape_inv m' chain 0
    ∧ heap m' = heap m ∧ states m' = states m
    ∧ load (heap m') (curr m') = Some c ∧ left c = None
    ∧ move_carriage_to_beginning m' = Some m'.
Proof.
  intros Hinv.
  destruct (move_carriage_to_beginning_spec _ _ _ Hinv) as (m' & Hmv & Hinv' & Hh & Hst).
  destruct (tape_inv_head _ _ _ Hinv') as (a & c & Hcurr & Ha & Hc & Hleft & _).
  exists m', c. split; [done|]. split; [done|]. split; [done|]. split; [done|].
  split; [by rewrite Hcurr|]. split; [done|].
  unfold move_carriage_to_beginning.
  rewrite (walk_left_head _ _ _ Hinv'), Ha, <- Hcurr. by destruct m'.
Qed.

Lemma rewind_to_leftmost_witness :
  ∃ m' c,
    move_carriage_to_beginning (with_curr tape_11 (Some 1)) = Some m'
    ∧ curr m' = Some 0
    ∧ load (heap m') (curr m') = Some c ∧ left c = None.
Proof.
  destruct (rewind_to_leftmost (with_curr tape_11 (Some 1)) [0; 1] 1)
    as (m' & c & Hmv & (_ & _ & Hcurr) & _ & _ & Hload & Hleft & _).
  - destruct tape_11_inv as (Hl & _ & _). split; [exact Hl|].
    split; [by eexists|reflexivity].
  - exists m', c. split; [exact Hmv|]. split; [exact Hcurr|].
    split; [exact Hload|exact Hleft].
Defined.

(** ** The run *)

Lemma tm_run_unfold (fuel : nat) (table : list state) (cells : list ascii)
    (pos : nat) (current : string) :
  current ≠ "halt" →
  tm_run (S fuel) table cells pos current
  = let symbol := default blank (cells !! pos) in
    match find_rule table current symbol with
    | None => Some (NoRule current symbol)
    | Some iter =>
        let '(cells', pos') :=
          tape_move (move iter)
            (<[pos := written symbol (out_symbol iter)]> cells, pos) in
        tm_run fuel table cells' pos' (next_name current iter)
    end.
Proof. intros H. simpl. by rewrite decide_False. Qed.

Lemma run_loop_tm_run (fuel : nat) (s : run_state) (chain : list addr) (pos : nat) :
  tape_inv (machine s) chain pos →
  contents (heap (machine s)) chain !! pos = Some (in_symbol (curr_state s)) →
  command s ≠ next_step →
  match tm_run fuel (states (machine s)) (contents (heap (machine s)) chain) pos
          (name (curr_state s)) with
  | None => run_loop fuel s = OutOfFuel
  | Some (Halted cells) =>
      ∃ s' chain' pos',
        run_loop fuel s = Returns (false, s')
        ∧ tape_inv (machine s') chain' pos'
        ∧ contents (heap (machine s')) chain' = cells
        ∧ stdout s' = stdout s +:+ render cells +:+ nl
        ∧ stdin s' = stdin s
  | Some (NoRule current symbol) =>
      ∃ s' chain' pos',
        run_loop fuel s = Returns (true, s')
        ∧ tape_inv (machine s') chain' pos'
        ∧ stdout s'
          = stdout s +:+ "Error! There is no state " +:+ current
            +:+ " with symbol " +:+ String symbol "" +:+ nl
        ∧ stdin s' = stdin s
  end.
Proof.
  revert s chain pos. induction fuel as [|fuel IH]; intros s chain pos Hinv Hsym Hcmd.
  - simpl. rewrite halt_decide.
    destruct (decide (name (curr_state s) = "halt")) as [Hhalt|Hhalt].
    + rewrite bool_decide_eq_true_2 by done. simpl.
      rewrite (print_answer_spec _ _ _ Hinv).
      by exists (printf s (render (contents (heap (machine s)) chain) +:+ nl)), chain, pos.
    + by rewrite bool_decide_eq_false_2.
  - destruct (decide (name (curr_state s) = "halt")) as [Hhalt|Hhalt].
    { simpl tm_run. rewrite decide_True by done.
      rewrite run_loop_halted, (print_answer_spec _ _ _ Hinv) by done.
      by exists (printf s (render (contents (heap (machine s)) chain) +:+ nl)), chain, pos. }
    assert (default blank (contents (heap (machine s)) chain !! pos)
            = in_symbol (curr_state s)) as Hdef by by rewrite Hsym.
    rewrite tm_run_unfold, run_loop_running by done. cbv zeta. rewrite Hdef.
    destruct (find_rule (states (machine s)) (name (curr_state s))
                (in_symbol (curr_state s))) as [iter|] eqn:Hfind.
    2:{ rewrite loop_body_no_rule by done.
        by exists (printf s (no_rule_error (curr_state s))), chain, pos. }
    destruct (loop_body_rule _ _ _ _ _ Hinv Hsym Hfind)
      as (m' & chain' & pos' & v & Hinv' & Hst & _ & Hv & Hcont & Hbody).
    rewrite Hbody, <- Hcont. cbv zeta.
    set (s1 := RunState m' (state_of (next_name (name (curr_state s)) iter) v)
                 (command s) (stdin s) (stdout s)).
    assert (match command s with
            | next_step =>
                scan_debug_command (stdin s)
                ≫= λ '(cmd, rest, prompts),
                     Some (Next (RunState m'
                             (state_of (next_name (name (curr_state s)) iter) v)
                             cmd rest
                             (stdout s +:+ (render (contents (heap m') chain') +:+ nl)
                              +:+ print_state iter +:+ prompts)))
            | _ => Some (Next s1)
            end = Some (Next s1)) as -> by by destruct (command s).
    specialize (IH s1 chain' pos' Hinv' Hv Hcmd).
    simpl in IH. by rewrite Hst in IH.
Qed.


(** X10. Outside the single-step mode, the run on the heap is the run of the
    machine on the sequence of symbols.  When that run halts, the loop
    returns [false], the tape holds the final symbols and their rendering is
    the one line printed.  When it stops on a state and symbol without rule,
    the loop returns [true] and the one line printed names them.  When it
    needs more passes, so does the loop.  The standard input is not read. *)
Theorem run_refines_tm_run (fuel : nat) (s : run_state) (chain : list addr) (pos : nat) :
  tape_inv (machine s) chain pos →
  contents (heap (machine s)) chain !! pos = Some (in_symbol (curr_state s)) →
  command s ≠ next_step →
  match tm_run fuel (states (machine s)) (contents (heap (machine s)) chain) pos
          (name (curr_state s)) with
  | None => run_loop fuel s = OutOfFuel
  | Some (Halted cells) =>
      ∃ s' chain' pos',
        run_loop fuel s = Returns (false, s')
        ∧ tape_inv (machine s') chain' pos'
        ∧ contents (heap (machine s')) chain' = cells
        ∧ stdout s' = stdout s +:+ render cells +:+ nl
        ∧ stdin s' = stdin s
  | Some (NoRule current symbol) =>
      ∃ s' chain' pos',
        run_loop fuel s = Returns (true, s')
        ∧ tape_inv (machine s') chain' pos'
        ∧ stdout s'
          = stdout s +:+ "Error! There is no state " +:+ current
            +:+ " with symbol " +:+ String symbol "" +:+ nl
        ∧ stdin s' = stdin s
  end.
Proof. apply run_loop_tm_run. Qed.

Lemma run_refines_tm_run_witness :
  ∃ s' chain' pos',
    run_loop 3 (RunState tape_11 (state_of "0" "1") non_debug [] "")
    = Returns (false, s')
    ∧ tape_inv (machine s') chain' pos'
    ∧ contents (heap (machine s')) chain' = ["1"; "1"; "1"]%char
    ∧ stdout s' = "" +:+ render ["1"; "1"; "1"]%char +:+ nl
    ∧ stdin s' = [].
Proof.
  apply (run_refines_tm_run 3 (RunState tape_11 (state_of "0" "1") non_debug [] "")
           [0; 1] 0 tape_11_inv).
  - reflexivity.
  - discriminate.
Defined.

(** ** [clean] and the whole program in release mode *)






(** ** The debug mode *)

(** X12. In single-step mode a pass that applies the rule [iter] prints the
    tape as the rule left it, then the line of the rule, then the prompts of
    the dialogue, and goes on with the command and the input the dialogue
    leaves.  When the input holds no command, the pass has no result. *)
Theorem single_step_pass_prints (s : run_state) (iter : state)
    (chain : list addr) (pos : nat) :
  tape_inv (machine s) chain pos →
  find_rule (states (machine s)) (name (curr_state s)) (in_symbol (curr_state s))
  = Some iter →
  command s = next_step →
  (scan_debug_command (stdin s) = None → loop_body s = None)
  ∧ ∀ cmd rest prompts,
      scan_debug_command (stdin s) = Some (cmd, rest, prompts) →
      ∃ s' chain' pos',
        loop_body s = Some (Next s')
        ∧ tape_inv (machine s') chain' pos'
        ∧ command s' = cmd ∧ stdin s' = rest
        ∧ stdout s'
          = stdout s +:+ (render (contents (heap (machine s')) chain') +:+ nl)
            +:+ ("Last executed state: " +:+ name iter
                 +:+ " " +:+ String (in_symbol iter) ""
                 +:+ " " +:+ String (out_symbol iter) ""
                 +:+ " " +:+ String (move iter) ""
                 +:+ " " +:+ next_state iter +:+ nl)
            +:+ prompts.
Proof.
  intros Hinv Hfind Hcmd.
  destruct (tape_inv_head _ _ _ Hinv) as (a & c & _ & _ & _ & _ & _ & Hold).
  destruct (loop_body_rule _ _ _ _ _ Hinv Hold Hfind)
    as (m' & chain' & pos' & v & Hinv' & _ & _ & _ & _ & Hbody).
  rewrite Hbody, Hcmd. cbv zeta. split.
  - by intros ->.
  - intros cmd rest prompts ->. simpl. eexists _, chain', pos'.
    split; [done|]. simpl. by split.
Qed.

Lemma single_step_pass_prints_witness :
  ∃ s',
    loop_body (RunState tape_11 (state_of "0" "1") next_step ["c"%char] "")
    = Some (Next s')
    ∧ command s' = until_end ∧ stdin s' = [].
Proof.
  destruct (single_step_pass_prints
              (RunState tape_11 (state_of "0" "1") next_step ["c"%char] "")
              (State "0" "1" "1" "r" "0") [0; 1] 0) as [_ Hstep].
  - exact tape_11_inv.
  - reflexivity.
  - reflexivity.
  - destruct (Hstep until_end [] "") as (s' & _ & _ & Hbody & _ & Hc & Hin & _).
    + reflexivity.
    + exists s'. split; [exact Hbody|]. split; [exact Hc|exact Hin].
Defined.



(** ** The cells [clean] deletes *)

Lemma not_elem_of_take (chain : list addr) (i : nat) (a : addr) :
  NoDup chain → chain !! i = Some a → a ∉ reverse (take i chain).
Proof.
  intros Hnd Ha. rewrite elem_of_reverse.
  intros (j & Hj)%list_elem_of_lookup.
  apply lookup_take_Some in Hj as [Hj Hlt].
  assert (j = i) by by eapply NoDup_lookup. lia.
Qed.

Lemma clean_loop_spec (h : list bi_list) (chain : list addr) (fuel i : nat) (a : addr) :
  linked h chain → chain !! i = Some a → length chain - i ≤ fuel →
  clean_loop fuel h (reverse (take i chain)) (Some a) = Some (reverse chain).
Proof.
  intros Hl. revert i a. induction fuel as [|fuel IH]; intros i a Ha Hfuel.
  { apply lookup_lt_Some in Ha. lia. }
  destruct (linked_lookup _ _ _ _ Hl Ha) as (c & Hc & _ & Hright).
  pose proof (not_elem_of_take _ _ _ (proj1 Hl) Ha) as Hlive.
  assert (reverse (take (S i) chain) = a :: reverse (take i chain)) as Htake.
  { by rewrite (take_S_r _ _ a), reverse_snoc. }
  simpl. unfold live_load. simpl. rewrite !decide_False, Hc by done. simpl.
  rewrite Hright. destruct (chain !! S i) as [r|] eqn:Hr.
  - destruct (linked_lookup _ _ _ _ Hl Hr) as (c' & Hc' & Hleft & _).
    pose proof (not_elem_of_take _ _ _ (proj1 Hl) Hr) as Hlive'.
    rewrite Htake in Hlive'. apply not_elem_of_cons in Hlive' as [_ Hlive'].
    rewrite !decide_False, Hc' by done. simpl. rewrite Hleft. simpl. rewrite Ha.
    simpl. rewrite !decide_False, Hc by done. simpl.
    rewrite <- Htake. apply IH; [done|lia].
  - apply lookup_ge_None in Hr. by rewrite <- Htake, take_ge.
Qed.

Lemma clean_deleting_spec (m : TM) (chain : list addr) (pos : nat) :
  tape_inv m chain pos →
  clean_deleting m = Some (reverse chain) ∧ NoDup (reverse chain).
Proof.
  intros Hinv.
  destruct (move_carriage_to_beginning_spec _ _ _ Hinv)
    as (m' & Hmv & Hinv' & Hh & _).
  destruct (tape_inv_head _ _ _ Hinv') as (a & c & Hcurr & Ha & _).
  destruct Hinv' as (Hl & _ & _).
  split; [|rewrite reverse_Permutation; apply Hl].
  unfold clean_deleting. rewrite Hmv. simpl. rewrite Hcurr.
  apply (clean_loop_spec _ chain _ 0); [done..|].
  apply linked_length in Hl. lia.
Qed.


(** X14. On a tape, [clean] deletes the cells of the tape and no other, each
    of them once, from the leftmost to the rightmost; it reads no cell after
    its deletion. *)
Theorem clean_deletes_each_cell_once (m : TM) (chain : list addr) (pos : nat) :
  tape_inv m chain pos →
  clean_deleting m = Some (reverse chain) ∧ NoDup (reverse chain).
Proof. apply clean_deleting_spec. Qed.

Lemma clean_deletes_each_cell_once_witness :
  clean_deleting (with_curr tape_11 (Some 1)) = Some [1; 0] ∧ NoDup [1; 0].
Proof.
  apply (clean_deletes_each_cell_once (with_curr tape_11 (Some 1)) [0; 1] 1).
  destruct tape_11_inv as (Hl & _ & _). split; [exact Hl|].
  split; [by eexists|reflexivity].
Defined.

(** ** Every allocated cell is on the tape *)

Lemma update_length (h h' : list bi_list) (p : ptr) (f : bi_list → bi_list) :
  update h p f = Some h' → length h' = length h.
Proof.
  unfold update. destruct p as [a|]; [|done]. simpl.
  destruct (h !! a); [|done]. simpl. intros [= <-]. apply length_insert.
Qed.

Lemma init_tape_loop_heap_length (input : list ascii) (m m' : TM) :
  init_tape_loop input m = Some m' →
  length (heap m') = length (heap m) + length (filter (λ c, c ≠ newline) input).
Proof.
  revert m. induction input as [|c_in input IH]; intros m Hrun; simpl in Hrun.
  { injection Hrun as <-. simpl. lia. }
  rewrite filter_cons. rewrite ascii_eqb_decide in Hrun.
  case_bool_decide as Hnl.
  { rewrite decide_False by (by intros ?). by apply IH. }
  rewrite decide_True by done.
  destruct (update _ (curr m) _) as [h1|] eqn:H1; [|done]. simpl in Hrun.
  destruct (load h1 (curr m)) as [c1|]; [|done]. simpl in Hrun.
  destruct (update h1 _ _) as [h2|] eqn:H2; [|done]. simpl in Hrun.
  destruct (load h2 (curr m)) as [c2|]; [|done]. simpl in Hrun.
  destruct (update h2 _ _) as [h3|] eqn:H3; [|done]. simpl in Hrun.
  destruct (load h3 (curr m)) as [c3|]; [|done]. simpl in Hrun.
  apply IH in Hrun. simpl in Hrun.
  apply update_length in H1, H2, H3. rewrite length_app in H1. simpl in *. lia.
Qed.

Lemma init_tape_heap_length (c_in : ascii) (input : list ascii) (m0 m : TM) (b : bool) :
  init_tape_by_input (c_in :: input) m0 = Some (b, m) →
  length (heap m)
  = length (heap m0) + S (length (filter (λ c, c ≠ newline) input)).
Proof.
  unfold init_tape_by_input, new_bi_list. intros Hinit.
  destruct (update _ _ _) as [h1|] eqn:H1; [|done]. simpl in Hinit.
  destruct (init_tape_loop _ _) as [m1|] eqn:Hloop; [|done]. simpl in Hinit.
  unfold move_carriage_to_beginning in Hinit.
  destruct (walk_left _ _ _) as [p|]; [|done]. simpl in Hinit.
  injection Hinit as <- <-. simpl.
  apply init_tape_loop_heap_length in Hloop. simpl in Hloop.
  apply update_length in H1. rewrite length_app in H1. simpl in *. lia.
Qed.

(** A move allocates a cell exactly when the tape gains one. *)
Lemma move_carriage_heap_length (direction : ascii) (m m' : TM)
    (chain : list addr) (pos : nat) (b : bool) :
  tape_inv m chain pos →
  move_carriage direction m = Some (b, m') →
  length (heap m') + length chain
  = length (heap m)
    + length (tape_move direction (contents (heap m) chain, pos)).1.
Proof.
  intros Hinv Hmove.
  destruct (tape_inv_head _ _ _ Hinv)
    as (a & c & Hcurr & Ha & Hc & Hleft & Hright & _).
  destruct (lookup_after_alloc (heap m) a c (set_right (Some (length (heap m))) c) Hc)
    as (R1 & R2 & R3).
  destruct (lookup_after_alloc (heap m) a c (set_left (Some (length (heap m))) c) Hc)
    as (L1 & L2 & L3).
  assert (a ≠ length (heap m)) as Hne by (apply lookup_lt_Some in Hc; lia).
  apply lookup_lt_Some in Ha as Hpos.
  unfold tape_move. rewrite contents_length.
  unfold move_carriage in Hmove. rewrite !ascii_eqb_decide in Hmove.
  destruct (decide (direction = "r"%char)) as [->|Hr].
  - simpl in Hmove. rewrite Hcurr in Hmove. simpl in Hmove.
    rewrite Hc in Hmove. simpl in Hmove.
    destruct (right c) as [r|] eqn:Hrc; simpl in Hmove.
    + rewrite Hcurr in Hmove. simpl in Hmove. rewrite Hc in Hmove.
      injection Hmove as <- <-. simpl.
      symmetry in Hright. apply lookup_lt_Some in Hright.
      rewrite decide_False by lia. simpl. rewrite contents_length. lia.
    + rewrite R1 in Hmove. simpl in Hmove. rewrite R2 in Hmove. simpl in Hmove.
      rewrite R3 in Hmove. simpl in Hmove. rewrite Hcurr in Hmove. simpl in Hmove.
      rewrite list_lookup_insert_ne, R2 in Hmove by done. simpl in Hmove.
      injection Hmove as <- <-. simpl.
      symmetry in Hright. apply lookup_ge_None in Hright.
      rewrite decide_True by lia. simpl.
      rewrite !length_insert, !length_app, contents_length. simpl. lia.
  - rewrite (bool_decide_eq_false_2 _ Hr) in Hmove.
    destruct (decide (direction = "l"%char)) as [->|Hl].
    + simpl in Hmove. rewrite Hcurr in Hmove. simpl in Hmove.
      rewrite Hc in Hmove. simpl in Hmove.
      destruct (left c) as [l|] eqn:Hlc; simpl in Hmove.
      * rewrite Hcurr in Hmove. simpl in Hmove. rewrite Hc in Hmove.
        injection Hmove as <- <-. simpl.
        destruct pos as [|p]; [done|]. simpl. rewrite contents_length. lia.
      * rewrite L1 in Hmove. simpl in Hmove. rewrite L2 in Hmove. simpl in Hmove.
        rewrite L3 in Hmove. simpl in Hmove. rewrite Hcurr in Hmove. simpl in Hmove.
        rewrite list_lookup_insert_ne, L2 in Hmove by done. simpl in Hmove.
        injection Hmove as <- <-. simpl.
        destruct pos as [|p].
        -- simpl. rewrite !length_insert, !length_app, contents_length. simpl. lia.
        -- simpl in Hleft. symmetry in Hleft. apply lookup_ge_None in Hleft. lia.
    + rewrite (bool_decide_eq_false_2 _ Hl) in Hmove.
      injection Hmove as <- <-. simpl. rewrite contents_length. lia.
Qed.

Lemma loop_body_Next_inv (s s' : run_state) :
  loop_body s = Some (Next s') →
  ∃ iter h,
    find_rule (states (machine s)) (name (curr_state s)) (in_symbol (curr_state s))
    = Some iter
    ∧ update (heap (machine s)) (curr (machine s))
        (λ c, set_value c (out_symbol iter)) = Some h
    ∧ move_carriage (move iter) (with_heap (machine s) h) = Some (true, machine s').
Proof.
  unfold loop_body. intros Hbody.
  destruct (find_rule _ _ _) as [iter|]; [|done].
  exists iter. simpl in Hbody.
  destruct (update _ _ _) as [h|]; [|done]. exists h. simpl in Hbody.
  destruct (move_carriage _ _) as [[[] m']|]; try done. simpl in Hbody.
  destruct (load _ _); [|done]. simpl in Hbody.
  destruct (command s).
  - destruct (print_answer m'); [|done]. simpl in Hbody.
    destruct (scan_debug_command _) as [[[cmd rest] prompts]|]; [|done].
    by simplify_eq/=.
  - by simplify_eq/=.
  - by simplify_eq/=.
Qed.

Lemma covered_elem_of (h : list bi_list) (chain : list addr) (a : addr) :
  linked h chain → length chain = length h → a < length h ↔ a ∈ chain.
Proof.
  intros Hl Hlen. split; [|by apply linked_lt].
  assert (chain ≡ₚ seq 0 (length h)) as ->.
  { apply submseteq_length_Permutation; [|by rewrite length_seq, Hlen].
    apply NoDup_submseteq; [apply Hl|]. intros x Hx.
    apply elem_of_seq. split; [lia|]. simpl. by eapply linked_lt. }
  intros Ha. apply elem_of_seq. lia.
Qed.

Lemma reachable_covered (table : list state) (input : list ascii) (mode : ascii)
    (stdin0 : list ascii) (stdout0 : string) (s : run_state) :
  reachable table input mode stdin0 stdout0 s →
  ∃ chain pos,
    tape_inv (machine s) chain pos ∧ length chain = length (heap (machine s)).
Proof.
  induction 1 as [m s Hinit Hpro|s s' _ (chain & pos & Hinv & Hlen) Hhalt Hbody].
  - destruct input as [|c_in input]; [done|].
    destruct (init_tape_by_input_spec c_in input (Machine [] None table))
      as (m' & chain & Hinit' & Hinv & _ & Hcont & _).
    assert (m' = m) as -> by congruence.
    assert (machine s = m) as ->.
    { unfold run_prologue in Hpro.
      destruct (if (mode =? "d")%char then _ else _) as [[[cmd rest] out]|];
        [|done].
      simpl in Hpro. destruct (load _ _); [|done]. by simplify_eq/=. }
    exists chain, 0. split; [done|].
    rewrite (init_tape_heap_length _ _ _ _ _ Hinit). simpl.
    apply (f_equal length) in Hcont.
    by rewrite contents_length, length_fmap in Hcont.
  - destruct (loop_body_Next_inv _ _ Hbody) as (iter & h & _ & Hupd & Hmove).
    destruct (tape_inv_head _ _ _ Hinv) as (a & c & _ & _ & _ & _ & _ & Hold).
    destruct (write_head _ _ _ (out_symbol iter) _ Hinv Hold)
      as (h0 & Hupd0 & Hinv1 & _ & _).
    assert (h0 = h) as -> by congruence.
    destruct (move_carriage_spec (move iter) _ _ _ Hinv1)
      as (m' & chain' & pos' & Hmove' & Hinv' & _ & Hcont & _).
    assert (m' = machine s') as -> by congruence.
    exists chain', pos'. split; [done|].
    pose proof (move_carriage_heap_length _ _ _ _ _ _ Hinv1 Hmove) as Hheap.
    rewrite <- Hcont in Hheap. simpl in Hheap.
    rewrite contents_length in Hheap.
    apply update_length in Hupd. lia.
Qed.

(** X15. In every state a run passes through, the cells of the heap are the
    cells of the tape: none was allocated and left off the chain.  [clean]
    then deletes every cell of the heap, each of them once. *)
Theorem every_cell_is_on_the_tape (table : list state) (input : list ascii)
    (mode : ascii) (stdin0 : list ascii) (stdout0 : string) (s : run_state) :
  reachable table input mode stdin0 stdout0 s →
  ∃ chain pos,
    tape_inv (machine s) chain pos
    ∧ (∀ a, a < length (heap (machine s)) ↔ a ∈ chain)
    ∧ ∃ deleted,
        clean_deleting (machine s) = Some deleted
        ∧ NoDup deleted
        ∧ ∀ a, a < length (heap (machine s)) ↔ a ∈ deleted.
Proof.
  intros Hreach.
  destruct (reachable_covered _ _ _ _ _ _ Hreach) as (chain & pos & Hinv & Hlen).
  exists chain, pos. split; [done|].
  assert (∀ a, a < length (heap (machine s)) ↔ a ∈ chain) as Hall.
  { intros a. apply covered_elem_of; [apply Hinv|done]. }
  split; [done|].
  destruct (clean_deleting_spec _ _ _ Hinv) as [Hclean Hnd].
  exists (reverse chain). split; [done|]. split; [done|].
  intros a. by rewrite elem_of_reverse.
Qed.

Lemma every_cell_is_on_the_tape_witness :
  ∃ chain pos,
    tape_inv tape_11 chain pos
    ∧ (∀ a, a < 2 ↔ a ∈ chain)
    ∧ ∃ deleted,
        clean_deleting tape_11 = Some deleted
        ∧ NoDup deleted
        ∧ ∀ a, a < 2 ↔ a ∈ deleted.
Proof.
  apply (every_cell_is_on_the_tape unary_increment ["1"; "1"]%char "r" [] ""
           (RunState tape_11 (state_of "0" "1") non_debug [] "")).
  eapply reachable_start; reflexivity.
Defined.
